(** * A fixed-size worker-thread pool with named tasks (pool.cc / pool.h)

    The pool is embedded as a labelled transition system.  Every piece of
    code that the source executes while it holds [mtx_] is one atomic
    transition; a call that suspends its thread ([info->cv.wait],
    [cv_queue_.wait], [std::thread::join]) is cut at the suspension point
    and resumes through a later transition that is enabled exactly when the
    wait predicate of the source holds.  Condition variables carry no data
    in the source (predicate re-check pattern), so a notification is simply
    the fact that the resuming transition has become enabled. *)

From stdpp Require Import gmap strings list fin_maps.
From Stdlib Require Import ZArith.

Local Open Scope string_scope.
Local Open Scope list_scope.

(** ** Exceptions thrown by the pool *)

Inductive exn : Type :=
  | invalid_argument (what : string)
  | runtime_error (what : string).

Definition InvalidConfiguration : exn :=
  invalid_argument "num_threads must be > 0".
Definition NullTask : exn :=
  invalid_argument "SubmitTask: task pointer is null".
Definition DuplicateTaskName (name : string) : exn :=
  runtime_error ("Duplicate task name submitted: " +:+ name).
Definition UnknownTaskName (name : string) : exn :=
  runtime_error ("WaitForTask: unknown task name: " +:+ name).

(** ** Tasks and task records *)

(** How a call of the virtual [Task::Run] ends, when it ends.  What [Run]
    does before that is not part of a task: a [Run] that calls back into
    the pool shows as transitions of a caller interleaved with the worker
    that is inside it, and nothing here says when, or whether, a run in
    progress ends.  The transition that ends a run is therefore always
    offered to the scheduler; conclusions drawn from it are about what
    holds if and when the run ends, never that it does end. *)
Inductive completion : Type :=
  | Returns
  | Throws (e : exn).

(** A [Task] object: its address and what its [Run] override does.  A
    [Task *] is an [option Task], [None] being the null pointer. *)
Record Task : Type := mkTask {
  task_addr : nat;
  Run : completion
}.

(** [struct TaskInfo]; the condition variable [cv] is implicit. *)
Record TaskInfo : Type := mkTaskInfo {
  task : option Task;
  started : bool;
  finished : bool;
  waited : bool
}.

Definition set_started (r : TaskInfo) : TaskInfo :=
  mkTaskInfo (task r) true (finished r) (waited r).
Definition set_finished (r : TaskInfo) : TaskInfo :=
  mkTaskInfo (task r) (started r) true (waited r).
Definition set_waited (r : TaskInfo) : TaskInfo :=
  mkTaskInfo (task r) (started r) (finished r) true.

(** ** Worker threads *)

(** Where a worker thread stands in [WorkerLoop]. *)
Inductive thread : Type :=
  | AtWait                (* at [cv_queue_.wait], line 77 *)
  | InRun (info : nat)    (* lines 87-92: lock released, owns [info], inside [Run] *)
  | Exited                (* left the loop through [break]; still joinable *)
  | Joined.               (* joined by [Stop] *)

Global Instance thread_eq_dec : EqDecision thread.
Proof. solve_decision. Defined.

(** Who is suspended in the join loop of [Stop]. *)
Inductive caller : Type :=
  | ByUser          (* a direct call of [Stop] *)
  | ByDestructor.   (* the call of [Stop] made by [~ThreadPool] *)

(** ** The pool *)

(** The members of [class ThreadPool], the heap of [TaskInfo] objects the
    [shared_ptr]s point into, and what an observer of the pool records:
    the tasks whose [Run] was called, the tasks the pool deleted, and the
    callers currently suspended inside an operation.

    A key of [heap] names a [TaskInfo] object by the order of its
    allocation, not by a machine address, so [make_shared] always yields a
    new key.  The program reaches a record only through [tasks_], a worker
    or a suspended waiter; the entry of a record that none of them refers
    to any more is the observer's history of an object that the last
    [shared_ptr] has freed. *)
Record ThreadPool : Type := mkPool {
  stopping_ : bool;
  queue_ : list string;
  tasks_ : gmap string nat;
  threads_ : list thread;
  heap : gmap nat TaskInfo;
  next_info : nat;                 (* number of make_shared calls so far *)
  ran : list Task;                 (* calls of Run, latest first *)
  released : list Task;            (* deletes of Task objects, latest first *)
  waiting : list (string * nat);   (* callers inside info->cv.wait: (it, info) *)
  joiner : option caller;          (* the caller inside Stop's join loop *)
  destroyed : bool
}.

Definition with_stopping (b : bool) (p : ThreadPool) : ThreadPool :=
  mkPool b (queue_ p) (tasks_ p) (threads_ p) (heap p) (next_info p)
         (ran p) (released p) (waiting p) (joiner p) (destroyed p).
Definition with_queue (q : list string) (p : ThreadPool) : ThreadPool :=
  mkPool (stopping_ p) q (tasks_ p) (threads_ p) (heap p) (next_info p)
         (ran p) (released p) (waiting p) (joiner p) (destroyed p).
Definition with_tasks (m : gmap string nat) (p : ThreadPool) : ThreadPool :=
  mkPool (stopping_ p) (queue_ p) m (threads_ p) (heap p) (next_info p)
         (ran p) (released p) (waiting p) (joiner p) (destroyed p).
Definition with_threads (ts : list thread) (p : ThreadPool) : ThreadPool :=
  mkPool (stopping_ p) (queue_ p) (tasks_ p) ts (heap p) (next_info p)
         (ran p) (released p) (waiting p) (joiner p) (destroyed p).
Definition with_heap (h : gmap nat TaskInfo) (p : ThreadPool) : ThreadPool :=
  mkPool (stopping_ p) (queue_ p) (tasks_ p) (threads_ p) h (next_info p)
         (ran p) (released p) (waiting p) (joiner p) (destroyed p).
Definition with_next_info (n : nat) (p : ThreadPool) : ThreadPool :=
  mkPool (stopping_ p) (queue_ p) (tasks_ p) (threads_ p) (heap p) n
         (ran p) (released p) (waiting p) (joiner p) (destroyed p).
Definition with_ran (l : list Task) (p : ThreadPool) : ThreadPool :=
  mkPool (stopping_ p) (queue_ p) (tasks_ p) (threads_ p) (heap p) (next_info p)
         l (released p) (waiting p) (joiner p) (destroyed p).
Definition with_released (l : list Task) (p : ThreadPool) : ThreadPool :=
  mkPool (stopping_ p) (queue_ p) (tasks_ p) (threads_ p) (heap p) (next_info p)
         (ran p) l (waiting p) (joiner p) (destroyed p).
Definition with_waiting (l : list (string * nat)) (p : ThreadPool) : ThreadPool :=
  mkPool (stopping_ p) (queue_ p) (tasks_ p) (threads_ p) (heap p) (next_info p)
         (ran p) (released p) l (joiner p) (destroyed p).
Definition with_joiner (j : option caller) (p : ThreadPool) : ThreadPool :=
  mkPool (stopping_ p) (queue_ p) (tasks_ p) (threads_ p) (heap p) (next_info p)
         (ran p) (released p) (waiting p) j (destroyed p).
Definition with_destroyed (b : bool) (p : ThreadPool) : ThreadPool :=
  mkPool (stopping_ p) (queue_ p) (tasks_ p) (threads_ p) (heap p) (next_info p)
         (ran p) (released p) (waiting p) (joiner p) b.

(** [delete t] for a [Task *]; deleting the null pointer does nothing. *)
Definition delete_task (t : option Task) (p : ThreadPool) : ThreadPool :=
  match t with
  | Some t => with_released (t :: released p) p
  | None => p
  end.

(** ** Outcome of one transition *)

Inductive result : Type :=
  | Ok (p : ThreadPool)               (* the call, or the thread function, returned *)
  | Throw (e : exn) (p : ThreadPool)  (* the call left by an exception *)
  | Pending (p : ThreadPool)          (* the thread goes on inside the call or loop *)
  | NotEnabled                        (* the thread cannot take this transition now *)
  | Undefined                         (* undefined behaviour of the C++ program *)
  | Terminated.                       (* std::terminate *)

Definition pool_of (r : result) : option ThreadPool :=
  match r with
  | Ok p | Throw _ p | Pending p => Some p
  | NotEnabled | Undefined | Terminated => None
  end.

(** ** ThreadPool::ThreadPool (lines 8-16) *)

(** The pool as its default member initialisers leave it. *)
Definition fresh_pool : ThreadPool :=
  mkPool false [] ∅ [] ∅ 0 [] [] [] None false.

(** The [for] loop of the constructor: [n] more [emplace_back]s. *)
Fixpoint spawn (n : nat) (threads : list thread) : list thread :=
  match n with
  | O => threads
  | S n' => spawn n' (threads ++ [AtWait])
  end.

Definition ThreadPool_new (num_threads : Z) : exn + ThreadPool :=
  if (num_threads <=? 0)%Z then inl InvalidConfiguration
  else inr (with_threads (spawn (Z.to_nat num_threads) (threads_ fresh_pool))
                         fresh_pool).

(** ** ThreadPool::SubmitTask (lines 31-53) *)

Definition SubmitTask (name : string) (t : option Task) (p : ThreadPool) : result :=
  match t with
  | None => Throw NullTask p
  | Some tk =>
      if stopping_ p then Ok p
      else
        match tasks_ p !! name with
        | Some _ => Throw (DuplicateTaskName name) (delete_task (Some tk) p)
        | None =>
            let info := next_info p in
            let p1 := with_next_info (S info)
                        (with_heap (<[info := mkTaskInfo (Some tk) false false false]>
                                      (heap p)) p) in
            let p2 := with_tasks (<[name := info]> (tasks_ p1)) p1 in
            Ok (with_queue (queue_ p2 ++ [name]) p2)
        end
  end.

(** ** ThreadPool::WaitForTask (lines 55-69) *)

(** Lines 64-68, reached when the predicate of [info->cv.wait] holds.
    [it] still designates the element [(name, info)] of [tasks_] only as
    long as that element has not been erased; erasing through it afterwards
    is undefined. *)
Definition WaitForTask_reclaim (name : string) (info : nat) (p : ThreadPool) : result :=
  match heap p !! info with
  | None => Undefined
  | Some r =>
      if finished r then
        if decide (tasks_ p !! name = Some info) then
          Ok (delete_task (task r) (with_tasks (delete name (tasks_ p)) p))
        else Undefined
      else NotEnabled
  end.

(** Lines 56-63 up to the first evaluation of the wait predicate. *)
Definition WaitForTask (name : string) (p : ThreadPool) : result :=
  match tasks_ p !! name with
  | None => Throw (UnknownTaskName name) p
  | Some info =>
      match heap p !! info with
      | None => Undefined
      | Some r =>
          let p1 := with_heap (<[info := set_waited r]> (heap p)) p in
          if finished r then WaitForTask_reclaim name info p1
          else Pending (with_waiting (waiting p1 ++ [(name, info)]) p1)
      end
  end.

(** The [i]-th suspended waiter is woken and re-checks its predicate. *)
Definition WaitForTask_wake (i : nat) (p : ThreadPool) : result :=
  match waiting p !! i with
  | None => NotEnabled
  | Some (name, info) =>
      match WaitForTask_reclaim name info p with
      | Ok p' => Ok (with_waiting (delete i (waiting p')) p')
      | r => r
      end
  end.

(** ** ThreadPool::WorkerLoop (lines 71-100) *)

(** [try { ... } catch (...) { }] around the call of [Run]. *)
Definition catch_all (c : completion) : completion :=
  match c with
  | Returns => Returns
  | Throws _ => Returns
  end.

(** Lines 76-89 for worker [i]: leave [cv_queue_.wait], then either break
    out of the loop or dequeue the front name and call [Run]. *)
Definition WorkerLoop_wake (i : nat) (p : ThreadPool) : result :=
  match threads_ p !! i with
  | Some AtWait =>
      if negb (stopping_ p || negb (bool_decide (queue_ p = []))) then NotEnabled
      else if stopping_ p && bool_decide (queue_ p = []) then
        Ok (with_threads (<[i := Exited]> (threads_ p)) p)
      else
        match queue_ p with
        | [] => Undefined
        | name :: rest =>
            match tasks_ p !! name with
            | None => Undefined   (* operator[] inserts a null shared_ptr, line 84 dereferences it *)
            | Some info =>
                match heap p !! info with
                | None => Undefined
                | Some r =>
                    match task r with
                    | None => Undefined
                    | Some tk =>
                        Pending
                          (with_ran (tk :: ran p)
                             (with_threads (<[i := InRun info]> (threads_ p))
                                (with_heap (<[info := set_started r]> (heap p))
                                   (with_queue rest p))))
                    end
                end
            end
        end
  | _ => NotEnabled
  end.

(** Lines 88-98 for worker [i]: [Run] ends, the handler decides whether the
    exception leaves the thread function, the record is marked finished. *)
Definition WorkerLoop_done (i : nat) (p : ThreadPool) : result :=
  match threads_ p !! i with
  | Some (InRun info) =>
      match heap p !! info with
      | None => Undefined
      | Some r =>
          match task r with
          | None => Undefined
          | Some tk =>
              match catch_all (Run tk) with
              | Throws _ => Terminated
              | Returns =>
                  Pending (with_threads (<[i := AtWait]> (threads_ p))
                             (with_heap (<[info := set_finished r]> (heap p)) p))
              end
          end
      end
  | _ => NotEnabled
  end.

(** ** ThreadPool::Stop (lines 102-112) *)

(** Lines 103-108: the critical section and [notify_all]. *)
Definition Stop_enter (who : caller) (p : ThreadPool) : result :=
  if stopping_ p then Ok p
  else Pending (with_joiner (Some who) (with_stopping true p)).

Definition Stop (p : ThreadPool) : result := Stop_enter ByUser p.

(** Lines 109-111: [join] suspends the caller while the thread runs, so the
    loop is through exactly when every thread has left [WorkerLoop]. *)
Fixpoint join_all (ts : list thread) : option (list thread) :=
  match ts with
  | [] => Some []
  | Exited :: ts' | Joined :: ts' => cons Joined <$> join_all ts'
  | _ :: _ => None
  end.

(** ** ThreadPool::~ThreadPool (lines 18-29) *)

(** The loop of lines 25-27 over the elements of [tasks_]. *)
Fixpoint delete_all (kvs : list (string * nat)) (p : ThreadPool) : option ThreadPool :=
  match kvs with
  | [] => Some p
  | (_, info) :: kvs' =>
      match heap p !! info with
      | None => None
      | Some r => delete_all kvs' (delete_task (task r) p)
      end
  end.

Definition joinable (t : thread) : bool :=
  match t with
  | Joined => false
  | _ => true
  end.

(** Lines 23-29, followed by the destruction of the members: destroying a
    joinable [std::thread] calls [std::terminate]. *)
Definition dtor_body (p : ThreadPool) : result :=
  match delete_all (map_to_list (tasks_ p)) p with
  | None => Undefined
  | Some p1 =>
      if existsb joinable (threads_ p1) then Terminated
      else Ok (with_destroyed true (with_tasks ∅ p1))
  end.

Definition ThreadPool_delete (p : ThreadPool) : result :=
  if negb (stopping_ p) then Stop_enter ByDestructor p
  else dtor_body p.

(** The join loop of the suspended [Stop] completes; a destructor that was
    inside [Stop] goes on with its body. *)
Definition Stop_join (p : ThreadPool) : result :=
  match joiner p with
  | None => NotEnabled
  | Some who =>
      match join_all (threads_ p) with
      | None => NotEnabled
      | Some ts =>
          let p1 := with_joiner None (with_threads ts p) in
          match who with
          | ByUser => Ok p1
          | ByDestructor => dtor_body p1
          end
      end
  end.

(** ** The transition system *)

Inductive op : Type :=
  | OSubmit (name : string) (t : option Task)
  | OWaitFor (name : string)
  | OWake (i : nat)
  | OStop
  | OJoin
  | ODelete
  | OWorkerWake (i : nat)
  | OWorkerDone (i : nat).

(** Any use of a destroyed pool is undefined. *)
Definition run_op (o : op) (p : ThreadPool) : result :=
  if destroyed p then Undefined
  else
    match o with
    | OSubmit name t => SubmitTask name t p
    | OWaitFor name => WaitForTask name p
    | OWake i => WaitForTask_wake i p
    | OStop => Stop p
    | OJoin => Stop_join p
    | ODelete => ThreadPool_delete p
    | OWorkerWake i => WorkerLoop_wake i p
    | OWorkerDone i => WorkerLoop_done i p
    end.

Definition step (o : op) (p p' : ThreadPool) : Prop :=
  pool_of (run_op o p) = Some p'.

(** A schedule: the transitions taken, in order. *)
Fixpoint exec (os : list op) (p : ThreadPool) : option ThreadPool :=
  match os with
  | [] => Some p
  | o :: os' =>
      match pool_of (run_op o p) with
      | Some p' => exec os' p'
      | None => None
      end
  end.

(** The states a constructed pool can be in. *)
Inductive reachable : ThreadPool → Prop :=
  | reach_new n p : ThreadPool_new n = inr p → reachable p
  | reach_step o p p' : reachable p → step o p p' → reachable p'.

(** ** The invariant of a constructed pool *)

Record pool_inv (p : ThreadPool) : Prop := mk_pool_inv {
  inv_queue : ∀ name, name ∈ queue_ p →
    ∃ info r tk, tasks_ p !! name = Some info ∧ heap p !! info = Some r ∧
                 task r = Some tk ∧ started r = false ∧ finished r = false;
  inv_nodup : NoDup (queue_ p);
  inv_inj : ∀ n1 n2 info,
    tasks_ p !! n1 = Some info → tasks_ p !! n2 = Some info → n1 = n2;
  inv_reg : ∀ name info, tasks_ p !! name = Some info → is_Some (heap p !! info);
  inv_heap : ∀ info, is_Some (heap p !! info) → info < next_info p;
  inv_worker : ∀ i info, threads_ p !! i = Some (InRun info) →
    ∃ r, heap p !! info = Some r ∧ started r = true ∧ is_Some (task r);
  inv_exit : ∀ i, threads_ p !! i = Some Exited ∨ threads_ p !! i = Some Joined →
    stopping_ p = true ∧ queue_ p = [];
  inv_threads : threads_ p ≠ [];
  inv_destroyed : destroyed p = true →
    tasks_ p = ∅ ∧ Forall (eq Joined) (threads_ p)
}.

Global Instance exn_eq_dec : EqDecision exn.
Proof. solve_decision. Defined.
Global Instance completion_eq_dec : EqDecision completion.
Proof. solve_decision. Defined.
Global Instance Task_eq_dec : EqDecision Task.
Proof. solve_decision. Defined.

(** The pool owns a task when some [TaskInfo] record points to it. *)
Definition owns (p : ThreadPool) (t : Task) : Prop :=
  ∃ info r, heap p !! info = Some r ∧ task r = Some t.

(** The transition hands task [t] to [SubmitTask]. *)
Definition submits (t : Task) (o : op) : bool :=
  match o with
  | OSubmit _ (Some t') => bool_decide (t' = t)
  | _ => false
  end.

(** What a transition may do to the observations and the heap. *)
Record effect (o : op) (p p' : ThreadPool) : Prop := mk_effect {
  eff_ran : ∃ l, ran p' = l ++ ran p ∧
                 ∀ x, x ∈ l → owns p x ∨ submits x o = true;
  eff_released : ∃ l, released p' = l ++ released p ∧
                      ∀ x, x ∈ l → owns p x ∨ submits x o = true;
  eff_heap : ∀ info r, heap p !! info = Some r →
                       ∃ r', heap p' !! info = Some r' ∧ task r' = task r;
  eff_owns : ∀ x, owns p' x → owns p x ∨ submits x o = true
}.

(** [name] is queued in [p] and its record holds task [t]. *)
Definition queued_task (p : ThreadPool) (name : string) (t : Task) : Prop :=
  name ∈ queue_ p ∧
  ∃ info r, tasks_ p !! name = Some info ∧ heap p !! info = Some r ∧
            task r = Some t.

(** Where the task [t] registered under [name] at record [info] stands:
    still queued, or run and then either still registered or deleted. *)
Definition task_fate (name : string) (info : nat) (t : Task) (p : ThreadPool) : Prop :=
  (name ∈ queue_ p ∧ tasks_ p !! name = Some info) ∨
  (t ∈ ran p ∧ (tasks_ p !! name = Some info ∨ t ∈ released p)).




Definition crashed (r : result) : bool :=
  match r with
  | Undefined | Terminated => true
  | _ => false
  end.

(** A count of the workers still in their loop: two per running worker,
    one per worker at the wait. *)
Definition thread_weight (t : thread) : nat :=
  match t with
  | InRun _ => 2
  | AtWait => 1
  | Exited | Joined => 0
  end.

Fixpoint threads_weight (ts : list thread) : nat :=
  match ts with
  | [] => 0
  | t :: ts' => thread_weight t + threads_weight ts'
  end.



(** A worker leaves the wait of its loop. *)
Definition is_worker_wake (o : op) : bool :=
  match o with
  | OWorkerWake _ => true
  | _ => false
  end.

(** A thread that is not inside a run. *)
Definition resting (t : thread) : bool :=
  match t with
  | InRun _ => false
  | _ => true
  end.

(** Nothing is queued and no run is in progress. *)
Definition idle (p : ThreadPool) : Prop :=
  queue_ p = [] ∧ forallb resting (threads_ p) = true.

(** ** Sample pools and tasks *)

Definition count_task : Task := mkTask 1 Returns.
Definition other_task : Task := mkTask 2 Returns.
Definition faulty_task : Task := mkTask 3 (Throws (runtime_error "boom")).

Definition new_pool (n : Z) : ThreadPool :=
  match ThreadPool_new n with
  | inr p => p
  | inl _ => fresh_pool
  end.

Definition after (os : list op) (p : ThreadPool) : ThreadPool :=
  default p (exec os p).

(** One worker, one task queued and not yet dequeued. *)
Definition pool_queued : ThreadPool :=
  after [OSubmit "a" (Some count_task)] (new_pool 1).

(** One worker that exited after [Stop]. *)
Definition pool_stopped : ThreadPool :=
  after [OStop; OWorkerWake 0; OJoin] (new_pool 1).

(** One worker inside the [Run] of a throwing task, a second task queued,
    a caller waiting for the first. *)
Definition pool_faulting : ThreadPool :=
  after [OSubmit "f" (Some faulty_task); OSubmit "a" (Some count_task);
         OWorkerWake 0; OWaitFor "f"] (new_pool 1).

(** One worker at the wait, task "a" run and finished, and a caller that
    was suspended in [WaitForTask] on it before the run ended. *)
Definition pool_waited : ThreadPool :=
  after [OSubmit "a" (Some count_task); OWaitFor "a"; OWorkerWake 0; OWorkerDone 0]
        (new_pool 1).


(** ** What one transition changes *)

Definition exited (t : thread) : Prop := t = Exited ∨ t = Joined.

(** The shapes a transition of the pool can have, read on the members,
    the heap and the list of runs. *)
Inductive transition (p p' : ThreadPool) : Prop :=
  | tr_frame :
      queue_ p' = queue_ p → tasks_ p' = tasks_ p → threads_ p' = threads_ p →
      heap p' = heap p → ran p' = ran p →
      transition p p'
  | tr_submit name t :
      stopping_ p = false → tasks_ p !! name = None →
      heap p !! next_info p = None →
      queue_ p' = queue_ p ++ [name] →
      tasks_ p' = <[name := next_info p]> (tasks_ p) →
      heap p' = <[next_info p := mkTaskInfo (Some t) false false false]> (heap p) →
      threads_ p' = threads_ p → ran p' = ran p →
      transition p p'
  | tr_waited name info r :
      tasks_ p !! name = Some info → heap p !! info = Some r →
      heap p' = <[info := set_waited r]> (heap p) →
      queue_ p' = queue_ p → tasks_ p' = tasks_ p → threads_ p' = threads_ p →
      ran p' = ran p →
      transition p p'
  | tr_reclaim name info r :
      tasks_ p !! name = Some info → heap p !! info = Some r → finished r = true →
      tasks_ p' = delete name (tasks_ p) →
      (heap p' = heap p ∨ heap p' = <[info := set_waited r]> (heap p)) →
      queue_ p' = queue_ p → threads_ p' = threads_ p → ran p' = ran p →
      transition p p'
  | tr_exit i :
      threads_ p !! i = Some AtWait → stopping_ p = true → queue_ p = [] →
      threads_ p' = <[i := Exited]> (threads_ p) →
      queue_ p' = queue_ p → tasks_ p' = tasks_ p → heap p' = heap p →
      ran p' = ran p →
      transition p p'
  | tr_dequeue i name rest info r t :
      threads_ p !! i = Some AtWait → queue_ p = name :: rest →
      tasks_ p !! name = Some info → heap p !! info = Some r → task r = Some t →
      queue_ p' = rest →
      heap p' = <[info := set_started r]> (heap p) →
      threads_ p' = <[i := InRun info]> (threads_ p) →
      ran p' = t :: ran p → tasks_ p' = tasks_ p →
      transition p p'
  | tr_done i info r :
      threads_ p !! i = Some (InRun info) → heap p !! info = Some r →
      heap p' = <[info := set_finished r]> (heap p) →
      threads_ p' = <[i := AtWait]> (threads_ p) →
      queue_ p' = queue_ p → tasks_ p' = tasks_ p → ran p' = ran p →
      transition p p'
  | tr_join :
      Forall exited (threads_ p) →
      threads_ p' = replicate (length (threads_ p)) Joined →
      queue_ p' = queue_ p → tasks_ p' = tasks_ p → heap p' = heap p →
      ran p' = ran p →
      transition p p'
  | tr_destroy :
      Forall exited (threads_ p) →
      threads_ p' = replicate (length (threads_ p)) Joined →
      tasks_ p' = ∅ → destroyed p' = true →
      queue_ p' = queue_ p → heap p' = heap p → ran p' = ran p →
      transition p p'.

(** A record only moves forward: its task is never replaced and none of
    its flags is ever reset. *)
Definition evolves (r r' : TaskInfo) : Prop :=
  task r' = task r ∧
  (started r = true → started r' = true) ∧
  (finished r = true → finished r' = true) ∧
  (waited r = true → waited r' = true).

(** The life of the registered records. *)
Record life_inv (p : ThreadPool) : Prop := mk_life_inv {
  li_task : ∀ info r, heap p !! info = Some r → is_Some (task r);
  li_finished : ∀ info r,
    heap p !! info = Some r → finished r = true → started r = true;
  li_pending : ∀ name info r,
    tasks_ p !! name = Some info → heap p !! info = Some r → finished r = false →
    name ∈ queue_ p ∨ ∃ i, threads_ p !! i = Some (InRun info);
  li_held : ∀ i info,
    threads_ p !! i = Some (InRun info) →
    ∃ name r, tasks_ p !! name = Some info ∧ heap p !! info = Some r ∧
              finished r = false;
  li_unique : ∀ i j info,
    threads_ p !! i = Some (InRun info) → threads_ p !! j = Some (InRun info) →
    i = j
}.

(** The record at address [x] of heap [h] is marked started. *)
Definition started_in (h : gmap nat TaskInfo) (x : nat) : Prop :=
  ∃ r, h !! x = Some r ∧ started r = true.

(** The runs and the started records correspond one to one: [infos] lists,
    run by run, the record whose task was run. *)
Definition runs_of (p : ThreadPool) (infos : list nat) : Prop :=
  NoDup infos ∧
  Forall2 (λ t info, ∃ r, heap p !! info = Some r ∧ task r = Some t) (ran p) infos ∧
  ∀ info, info ∈ infos ↔ started_in (heap p) info.

(** [a] stands in front of [b] in the queue. *)
Definition ahead (a b : string) (q : list string) : Prop :=
  ∃ l1 l2 l3, q = l1 ++ a :: l2 ++ b :: l3.

(** ** More sample pools *)

(** Two workers, names "a" and "b" queued in this order. *)
Definition pool_two_queued : ThreadPool :=
  after [OSubmit "a" (Some count_task); OSubmit "b" (Some other_task)] (new_pool 2).

(** One worker at the wait, task "a" run and finished, never waited for. *)
Definition pool_finished : ThreadPool :=
  after [OSubmit "a" (Some count_task); OWorkerWake 0; OWorkerDone 0] (new_pool 1).

(** One worker inside the run of task "a". *)
Definition pool_running : ThreadPool :=
  after [OSubmit "a" (Some count_task); OWorkerWake 0] (new_pool 1).

(** [Stop] has returned while the finished task "a" is still registered. *)
Definition pool_stopped_unwaited : ThreadPool :=
  after [OSubmit "a" (Some count_task); OStop; OWorkerWake 0; OWorkerDone 0;
         OWorkerWake 0; OJoin] (new_pool 1).

(** A worker that has not left its loop. *)
Definition live (t : thread) : Prop := t = AtWait ∨ ∃ info, t = InRun info.

(** Where two queued names [a], [b] with records [ia], [ib] stand while
    dispatch is first-in first-out: [a] is still queued in front of [b], or
    the record of [a] is started. *)
Definition fifo_state (a b : string) (ia ib : nat) (p : ThreadPool) : Prop :=
  (ahead a b (queue_ p) ∧ tasks_ p !! a = Some ia ∧ tasks_ p !! b = Some ib) ∨
  started_in (heap p) ia.

(** * Proofs *)

(** ** Every transition keeps the invariant *)

(** The invariant reads the members and the heap only. *)
Lemma pool_inv_ext p p' :
  stopping_ p' = stopping_ p → queue_ p' = queue_ p → tasks_ p' = tasks_ p →
  threads_ p' = threads_ p → heap p' = heap p → next_info p' = next_info p →
  destroyed p' = destroyed p →
  pool_inv p → pool_inv p'.
Proof.
  destruct p, p'; simpl; intros; subst. 
  destruct H6; constructor; simpl in *; assumption.
Qed.

Lemma delete_task_inv t p : pool_inv p → pool_inv (delete_task t p).
Proof. destruct t; [|done]. by apply pool_inv_ext. Qed.

Lemma spawn_app n l : spawn n l = l ++ replicate n AtWait.
Proof.
  revert l; induction n as [|n IH]; intros l; simpl.
  - by rewrite app_nil_r.
  - by rewrite IH, <- app_assoc.
Qed.

Lemma ThreadPool_new_inv n p : ThreadPool_new n = inr p → pool_inv p.
Proof.
  unfold ThreadPool_new. destruct (Z.leb_spec n 0) as [|Hn]; [done|].
  intros [= <-]. rewrite spawn_app. simpl.
  constructor; simpl; try done.
  - intros name H; by apply elem_of_nil in H.
  - constructor.
  - intros info [r H]. by rewrite lookup_empty in H.
  - intros i info H. apply lookup_replicate in H as [? _]; done.
  - intros i [H|H]; apply lookup_replicate in H as [? _]; done.
  - destruct (Z.to_nat n) eqn:E; [lia|done].
Qed.

Lemma SubmitTask_inv name t p p' :
  pool_inv p → destroyed p = false → pool_of (SubmitTask name t p) = Some p' → pool_inv p'.
Proof.
  intros I Hd. unfold SubmitTask.
  destruct t as [tk|]; simpl; [|by intros [= <-]].
  destruct (stopping_ p) eqn:Hs; simpl; [by intros [= <-]|].
  destruct (tasks_ p !! name) as [info|] eqn:Hn; simpl; intros [= <-].
  { by apply pool_inv_ext with p. }
  assert (Hfresh : heap p !! next_info p = None).
  { destruct (heap p !! next_info p) eqn:E; [|done].
    pose proof (inv_heap p I (next_info p) (mk_is_Some _ _ E)). lia. }
  assert (Hq : name ∉ queue_ p).
  { intros Hin. destruct (inv_queue p I name Hin) as (?&?&?&?&_). congruence. }
  constructor; simpl.
  - intros n Hin. apply elem_of_app in Hin as [Hin|Hin].
    + destruct (inv_queue p I n Hin) as (info & r & tk' & H1 & H2 & H3).
      exists info, r, tk'.
      rewrite !lookup_insert_ne by congruence. done.
    + apply list_elem_of_singleton in Hin as ->.
      eexists _, _, _. rewrite !lookup_insert_eq. done.
  - apply NoDup_app. split; [apply I|]. split; [|apply NoDup_singleton].
    intros x Hx Hx'. apply list_elem_of_singleton in Hx' as ->. done.
  - intros n1 n2 info H1 H2.
    apply lookup_insert_Some in H1 as [[<- <-]|[Hne1 H1]];
      apply lookup_insert_Some in H2 as [[<- Heq]|[Hne2 H2]]; try done.
    + destruct (inv_reg p I _ _ H2) as [? ?]. congruence.
    + subst. destruct (inv_reg p I _ _ H1) as [? ?]. congruence.
    + by eapply (inv_inj p I).
  - intros n info H. apply lookup_insert_Some in H as [[<- <-]|[Hne H]].
    + by rewrite lookup_insert_eq.
    + apply lookup_insert_is_Some. right. split.
      * intros <-. destruct (inv_reg p I _ _ H). congruence.
      * by eapply (inv_reg p I).
  - intros info H. apply lookup_insert_is_Some in H as [<-|[_ H]]; [lia|].
    pose proof (inv_heap p I info H). lia.
  - intros i info H. destruct (inv_worker p I i info H) as (r & H1 & H2).
    exists r. rewrite lookup_insert_ne by congruence. done.
  - intros i H. destruct (inv_exit p I i H). congruence.
  - apply I.
  - congruence.
Qed.

(** Overwriting a record in place: its task is kept, [started] is never
    reset, and the record of a queued name keeps both flags. *)
Lemma heap_update_inv info r r' p :
  pool_inv p → heap p !! info = Some r →
  task r' = task r → (started r = true → started r' = true) →
  (started r = true ∨ (started r' = started r ∧ finished r' = finished r)) →
  pool_inv (with_heap (<[info := r']> (heap p)) p).
Proof.
  intros I Hr Ht Hs Hq. constructor; simpl; try apply I.
  - intros n Hin. destruct (inv_queue p I n Hin) as (i & r0 & tk & H1 & H2 & H3 & H4 & H5).
    destruct (decide (i = info)) as [->|Hne].
    + exists info, r'. rewrite lookup_insert_eq. simplify_eq.
      destruct Hq as [Hq|[Hq1 Hq2]]; [congruence|].
      exists tk. repeat split; congruence.
    + exists i, r0, tk. by rewrite lookup_insert_ne.
  - intros n i H. apply lookup_insert_is_Some'. right. by eapply (inv_reg p I).
  - intros i H. apply lookup_insert_is_Some' in H as [<-|H].
    + by eapply (inv_heap p I).
    + by apply (inv_heap p I).
  - intros i j H. destruct (inv_worker p I i j H) as (r0 & H1 & H2 & H3).
    destruct (decide (j = info)) as [->|Hne].
    + exists r'. rewrite lookup_insert_eq. simplify_eq.
      split; [done|]. split; [auto|]. by rewrite Ht.
    + exists r0. by rewrite lookup_insert_ne.
Qed.

Lemma WaitForTask_reclaim_inv name info p p' :
  pool_inv p → destroyed p = false →
  pool_of (WaitForTask_reclaim name info p) = Some p' → pool_inv p'.
Proof.
  intros I Hd. unfold WaitForTask_reclaim.
  destruct (heap p !! info) as [r|] eqn:Hr; [|done].
  destruct (finished r) eqn:Hf; [|done].
  case_decide as Hn; [|done]. simpl. intros [= <-].
  apply delete_task_inv. constructor; simpl; try apply I.
  - intros n Hin. destruct (inv_queue p I n Hin) as (i & r0 & tk & H1 & H2 & H3 & H4 & H5).
    exists i, r0, tk. rewrite lookup_delete_ne; [done|].
    intros <-. congruence.
  - intros n1 n2 i H1 H2.
    apply lookup_delete_Some in H1 as [_ H1]. apply lookup_delete_Some in H2 as [_ H2].
    by eapply (inv_inj p I).
  - intros n i H. apply lookup_delete_Some in H as [_ H]. by eapply (inv_reg p I).
  - congruence.
Qed.

Lemma WaitForTask_inv name p p' :
  pool_inv p → destroyed p = false →
  pool_of (WaitForTask name p) = Some p' → pool_inv p'.
Proof.
  intros I Hd. unfold WaitForTask.
  destruct (tasks_ p !! name) as [info|] eqn:Hn; [|by intros [= <-]].
  destruct (heap p !! info) as [r|] eqn:Hr; [|done].
  assert (I1 : pool_inv (with_heap (<[info := set_waited r]> (heap p)) p)).
  { eapply heap_update_inv; eauto. }
  destruct (finished r).
  - by apply WaitForTask_reclaim_inv.
  - simpl. intros [= <-]. revert I1. by apply pool_inv_ext.
Qed.

Lemma WaitForTask_wake_inv i p p' :
  pool_inv p → destroyed p = false →
  pool_of (WaitForTask_wake i p) = Some p' → pool_inv p'.
Proof.
  intros I Hd. unfold WaitForTask_wake.
  destruct (waiting p !! i) as [[name info]|]; [|done].
  destruct (WaitForTask_reclaim name info p) as [p1| | | | |] eqn:E; try done.
  - simpl. intros [= <-].
    assert (pool_inv p1) by (eapply WaitForTask_reclaim_inv; eauto; by rewrite E).
    by apply pool_inv_ext with p1.
  - exfalso. unfold WaitForTask_reclaim in E. repeat case_match; done.
  - exfalso. unfold WaitForTask_reclaim in E. repeat case_match; done.
Qed.

Lemma WorkerLoop_wake_inv i p p' :
  pool_inv p → destroyed p = false →
  pool_of (WorkerLoop_wake i p) = Some p' → pool_inv p'.
Proof.
  intros I Hd. unfold WorkerLoop_wake.
  destruct (threads_ p !! i) as [[| | |]|] eqn:Hi; try done.
  destruct (negb _); [done|].
  destruct (stopping_ p && bool_decide (queue_ p = [])) eqn:Hx.
  - apply andb_true_iff in Hx as [Hs Hq]. apply bool_decide_eq_true in Hq.
    simpl. intros [= <-]. constructor; simpl; try apply I.
    + intros j info H. apply list_lookup_insert_Some in H as [(_&?&_)|[_ H]]; [done|].
      by apply (inv_worker p I j).
    + done.
    + intros E. apply (inv_threads p I). apply (f_equal length) in E.
      rewrite length_insert in E. by destruct (threads_ p).
    + congruence.
  - destruct (queue_ p) as [|name rest] eqn:Hq; [done|].
    destruct (tasks_ p !! name) as [info|] eqn:Hn; [|done].
    destruct (heap p !! info) as [r|] eqn:Hr; [|done].
    destruct (task r) as [tk|] eqn:Ht; [|done].
    simpl. intros [= <-].
    pose proof (inv_nodup p I) as Hnd. rewrite Hq in Hnd.
    apply NoDup_cons in Hnd as [Hnotin Hnd].
    constructor; simpl; try apply I.
    + intros n Hin.
      destruct (inv_queue p I n) as (j & r0 & tk0 & H1 & H2 & H3).
      { rewrite Hq. by right. }
      exists j, r0, tk0. rewrite lookup_insert_ne; [done|].
      intros <-. assert (name = n) by (by eapply (inv_inj p I)). congruence.
    + done.
    + intros n j H. apply lookup_insert_is_Some'. right. by eapply (inv_reg p I).
    + intros j H. apply lookup_insert_is_Some' in H as [<-|H].
      * by eapply (inv_heap p I).
      * by apply (inv_heap p I).
    + intros j k H. apply list_lookup_insert_Some in H as [(_&[= <-]&_)|[_ H]].
      * exists (set_started r). rewrite lookup_insert_eq. simpl. rewrite Ht. eauto.
      * destruct (inv_worker p I j k H) as (r0 & H1 & H2 & H3).
        destruct (decide (k = info)) as [->|Hne].
        -- exists (set_started r). rewrite lookup_insert_eq. simpl. rewrite Ht. eauto.
        -- exists r0. by rewrite lookup_insert_ne.
    + intros j H.
      assert (threads_ p !! j = Some Exited ∨ threads_ p !! j = Some Joined) as H'.
      { destruct H as [H|H]; apply list_lookup_insert_Some in H as [(_&?&_)|[_ H]];
          try done; auto. }
      destruct (inv_exit p I j H'). congruence.
    + intros E. apply (inv_threads p I). apply (f_equal length) in E.
      rewrite length_insert in E. by destruct (threads_ p).
    + congruence.
Qed.

Lemma WorkerLoop_done_inv i p p' :
  pool_inv p → destroyed p = false →
  pool_of (WorkerLoop_done i p) = Some p' → pool_inv p'.
Proof.
  intros I Hd. unfold WorkerLoop_done.
  destruct (threads_ p !! i) as [[|info| |]|] eqn:Hi; try done.
  destruct (heap p !! info) as [r|] eqn:Hr; [|done].
  destruct (task r) as [tk|] eqn:Ht; [|done].
  destruct (catch_all (Run tk)); [|done].
  simpl. intros [= <-].
  destruct (inv_worker p I i info Hi) as (r0 & H1 & H2 & H3). simplify_eq.
  assert (I1 : pool_inv (with_heap (<[info := set_finished r]> (heap p)) p)).
  { eapply heap_update_inv; eauto. }
  constructor; simpl; try apply I1.
  - intros j k H. apply list_lookup_insert_Some in H as [(_&?&_)|[_ H]]; [done|].
    by apply (inv_worker _ I1 j).
  - intros j H.
    assert (threads_ p !! j = Some Exited ∨ threads_ p !! j = Some Joined) as H'.
    { destruct H as [H|H]; apply list_lookup_insert_Some in H as [(_&?&_)|[_ H]];
        try done; auto. }
    by apply (inv_exit p I j).
  - intros E. apply (inv_threads p I). apply (f_equal length) in E.
    rewrite length_insert in E. by destruct (threads_ p).
  - simpl. congruence.
Qed.

Lemma Stop_enter_inv who p p' :
  pool_inv p → destroyed p = false →
  pool_of (Stop_enter who p) = Some p' → pool_inv p'.
Proof.
  intros I Hd. unfold Stop_enter.
  destruct (stopping_ p) eqn:Hs; simpl; intros [= <-]; [done|].
  constructor; simpl; try apply I.
  intros i H. split; [done|]. by apply (inv_exit p I i).
Qed.

Lemma join_all_Some ts ts' :
  join_all ts = Some ts' →
  Forall (λ t, t = Exited ∨ t = Joined) ts ∧ ts' = replicate (length ts) Joined.
Proof.
  revert ts'; induction ts as [|t ts IH]; intros ts'; simpl.
  - intros [= <-]. by split.
  - destruct t; try done;
      (destruct (join_all ts) as [ts0|]; simpl; [|done]; intros [= <-];
       destruct (IH ts0 eq_refl) as [H1 ->]; split; [constructor; auto|done]).
Qed.

Lemma join_all_exited ts :
  Forall (λ t, t = Exited ∨ t = Joined) ts →
  join_all ts = Some (replicate (length ts) Joined).
Proof.
  induction 1 as [|t ts [->| ->] _ IH]; simpl; [done|..]; by rewrite IH.
Qed.

Lemma with_released_id p : with_released (released p) p = p.
Proof. by destruct p. Qed.

(** The destructor's loop deletes the task of every element of [tasks_]
    and touches nothing else. *)
Lemma delete_all_Some kvs p p1 :
  delete_all kvs p = Some p1 →
  ∃ l, p1 = with_released (l ++ released p) p ∧
       ∀ t, t ∈ l ↔ ∃ k info r, (k, info) ∈ kvs ∧ heap p !! info = Some r ∧
                               task r = Some t.
Proof.
  revert p; induction kvs as [|[k info] kvs IH]; intros p; simpl.
  - intros [= <-]. exists []. split; [symmetry; apply with_released_id|].
    intros t. split; [by intros ?%elem_of_nil|]. by intros (?&?&?&?%elem_of_nil&_).
  - destruct (heap p !! info) as [r|] eqn:Hr; [|done].
    intros H. apply IH in H as (l & -> & Hl).
    destruct (task r) as [tk|] eqn:Ht; simpl in *.
    + exists (l ++ [tk]). split; [unfold with_released; simpl; by rewrite <- app_assoc|].
      intros t. rewrite elem_of_app, Hl, list_elem_of_singleton. split.
      * intros [(k' & i' & r' & H1 & H2 & H3)| ->].
        -- exists k', i', r'. split; [by right|done].
        -- exists k, info, r. split; [by left|done].
      * intros (k' & i' & r' & H1 & H2 & H3).
        apply elem_of_cons in H1 as [[= -> ->]|H1].
        -- right. congruence.
        -- left. eauto 10.
    + exists l. split; [done|].
      intros t. rewrite Hl. split.
      * intros (k' & i' & r' & H1 & H2 & H3). exists k', i', r'. split; [by right|done].
      * intros (k' & i' & r' & H1 & H2 & H3).
        apply elem_of_cons in H1 as [[= -> ->]|H1]; [congruence|eauto 10].
Qed.

Lemma existsb_joinable_false ts :
  existsb joinable ts = false → ts = replicate (length ts) Joined.
Proof.
  induction ts as [|t ts IH]; simpl; [done|].
  intros [H1 H2]%orb_false_iff. destruct t; try done. by rewrite <- IH.
Qed.

Lemma dtor_body_Ok p r :
  dtor_body p = r → pool_of r ≠ None →
  ∃ l, r = Ok (with_destroyed true (with_tasks ∅ (with_released (l ++ released p) p))) ∧
       threads_ p = replicate (length (threads_ p)) Joined ∧
       ∀ t, t ∈ l ↔ ∃ k info r, tasks_ p !! k = Some info ∧ heap p !! info = Some r ∧
                               task r = Some t.
Proof.
  unfold dtor_body. intros <-.
  destruct (delete_all (map_to_list (tasks_ p)) p) as [p1|] eqn:E; [|done].
  apply delete_all_Some in E as (l & -> & Hl). simpl.
  destruct (existsb joinable (threads_ p)) eqn:Hj; [done|]. intros _.
  exists l. split; [done|]. split; [by apply existsb_joinable_false|].
  intros t. rewrite Hl. by setoid_rewrite elem_of_map_to_list.
Qed.

Lemma all_joined_inv p :
  pool_inv p → threads_ p = replicate (length (threads_ p)) Joined →
  stopping_ p = true ∧ queue_ p = [].
Proof.
  intros I E. apply (inv_exit p I 0). right.
  pose proof (inv_threads p I). rewrite E.
  destruct (threads_ p); [done|]. done.
Qed.

Lemma dtor_body_inv p p' :
  pool_inv p → pool_of (dtor_body p) = Some p' → pool_inv p'.
Proof.
  intros I H.
  destruct (dtor_body_Ok p _ eq_refl) as (l & E & Hj & _); [congruence|].
  rewrite E in H. simpl in H. injection H as <-.
  destruct (all_joined_inv p I Hj) as [Hs Hq].
  constructor; simpl; try apply I.
  - rewrite Hq. by intros n ?%elem_of_nil.
  - by intros ??? ?%lookup_empty_Some.
  - by intros ?? ?%lookup_empty_Some.
  - intros _. split; [done|]. rewrite Hj. by apply Forall_replicate.
Qed.

Lemma ThreadPool_delete_inv p p' :
  pool_inv p → destroyed p = false →
  pool_of (ThreadPool_delete p) = Some p' → pool_inv p'.
Proof.
  intros I Hd. unfold ThreadPool_delete. destruct (negb (stopping_ p)).
  - by apply Stop_enter_inv.
  - by apply dtor_body_inv.
Qed.

Lemma joined_inv ts p :
  pool_inv p → join_all (threads_ p) = Some ts →
  pool_inv (with_joiner None (with_threads ts p)).
Proof.
  intros I H. apply join_all_Some in H as [Hall ->].
  assert (stopping_ p = true ∧ queue_ p = []) as Hsq.
  { pose proof (inv_threads p I) as Hne.
    destruct (threads_ p) as [|t ts] eqn:E; [done|].
    apply Forall_cons in Hall as [Ht _].
    apply (inv_exit p I 0). rewrite E. simpl. destruct Ht as [-> | ->]; auto. }
  constructor; simpl; try apply I.
  - intros i info H. by apply lookup_replicate in H as [? _].
  - done.
  - pose proof (inv_threads p I). by destruct (threads_ p).
  - intros Hd. split; [by apply (inv_destroyed p I)|]. by apply Forall_replicate.
Qed.

Lemma Stop_join_inv p p' :
  pool_inv p → destroyed p = false →
  pool_of (Stop_join p) = Some p' → pool_inv p'.
Proof.
  intros I Hd. unfold Stop_join.
  destruct (joiner p) as [who|]; [|done].
  destruct (join_all (threads_ p)) as [ts|] eqn:E; [|done].
  pose proof (joined_inv ts p I E) as I1.
  destruct who.
  - simpl. by intros [= <-].
  - by apply dtor_body_inv.
Qed.

(** Every transition keeps the invariant. *)
Lemma step_inv o p p' : pool_inv p → step o p p' → pool_inv p'.
Proof.
  unfold step, run_op. intros I.
  destruct (destroyed p) eqn:Hd; [done|].
  destruct o.
  - by apply SubmitTask_inv.
  - by apply WaitForTask_inv.
  - by apply WaitForTask_wake_inv.
  - by apply Stop_enter_inv.
  - by apply Stop_join_inv.
  - by apply ThreadPool_delete_inv.
  - by apply WorkerLoop_wake_inv.
  - by apply WorkerLoop_done_inv.
Qed.

Lemma reachable_inv p : reachable p → pool_inv p.
Proof.
  induction 1 as [n p H|o p p' _ IH H].
  - by eapply ThreadPool_new_inv.
  - by eapply step_inv.
Qed.

Lemma exec_inv os p p' : pool_inv p → exec os p = Some p' → pool_inv p'.
Proof.
  revert p; induction os as [|o os IH]; intros p I; simpl.
  - by intros [= <-].
  - destruct (pool_of (run_op o p)) as [p1|] eqn:E; [|done].
    apply IH. by eapply step_inv.
Qed.

Lemma exec_reachable os p p' : reachable p → exec os p = Some p' → reachable p'.
Proof.
  revert p; induction os as [|o os IH]; intros p R; simpl.
  - by intros [= <-].
  - destruct (pool_of (run_op o p)) as [p1|] eqn:E; [|done].
    apply IH. by eapply reach_step.
Qed.

(** ** What transitions do to tasks *)

Lemma effect_same o p p' :
  ran p' = ran p → released p' = released p → heap p' = heap p → effect o p p'.
Proof.
  intros H1 H2 H3. constructor.
  - exists []. split; [done|]. by intros x ?%elem_of_nil.
  - exists []. split; [done|]. by intros x ?%elem_of_nil.
  - intros info r H. exists r. by rewrite H3.
  - intros x (info & r & H & Ht). left. exists info, r. by rewrite <- H3.
Qed.

Lemma effect_update o p p' info r r' :
  heap p !! info = Some r → task r' = task r →
  ran p' = ran p → released p' = released p → heap p' = <[info := r']> (heap p) →
  effect o p p'.
Proof.
  intros Hr Ht H1 H2 H3. constructor.
  - exists []. split; [done|]. by intros x ?%elem_of_nil.
  - exists []. split; [done|]. by intros x ?%elem_of_nil.
  - intros i r0 H. rewrite H3. destruct (decide (i = info)) as [->|Hne].
    + exists r'. rewrite lookup_insert_eq. split; [done|congruence].
    + exists r0. by rewrite lookup_insert_ne.
  - intros x (i & r0 & H & Hx). left. rewrite H3 in H.
    apply lookup_insert_Some in H as [[<- <-]|[_ H]].
    + exists info, r. split; [done|congruence].
    + by exists i, r0.
Qed.

Lemma effect_trans o p p1 p2 : effect o p p1 → effect o p1 p2 → effect o p p2.
Proof.
  intros [(l1 & E1 & O1) (l2 & E2 & O2) H1 W1] [(k1 & F1 & P1) (k2 & F2 & P2) H2 W2].
  constructor.
  - exists (k1 ++ l1). split; [by rewrite F1, E1, app_assoc|].
    intros x [Hx|Hx]%elem_of_app; [|auto].
    destruct (P1 x Hx) as [?|?]; auto.
  - exists (k2 ++ l2). split; [by rewrite F2, E2, app_assoc|].
    intros x [Hx|Hx]%elem_of_app; [|auto].
    destruct (P2 x Hx) as [?|?]; auto.
  - intros info r H. destruct (H1 info r H) as (r1 & Hr1 & T1).
    destruct (H2 info r1 Hr1) as (r2 & Hr2 & T2). exists r2. split; [done|congruence].
  - intros x Hx. destruct (W2 x Hx) as [?|?]; auto.
Qed.

Lemma delete_task_effect o p t :
  (∀ x, t = Some x → owns p x ∨ submits x o = true) → effect o p (delete_task t p).
Proof.
  intros H. destruct t as [x|]; [|by apply effect_same].
  constructor; simpl.
  - exists []. split; [done|]. by intros ? ?%elem_of_nil.
  - exists [x]. split; [done|]. intros ? ->%list_elem_of_singleton. auto.
  - intros info r Hr. by exists r.
  - intros y Hy. by left.
Qed.

Lemma SubmitTask_effect name t p p' :
  pool_inv p → pool_of (SubmitTask name t p) = Some p' →
  effect (OSubmit name t) p p'.
Proof.
  intros I. unfold SubmitTask.
  destruct t as [tk|]; simpl; [|intros [= <-]; by apply effect_same].
  destruct (stopping_ p); simpl; [intros [= <-]; by apply effect_same|].
  destruct (tasks_ p !! name); simpl; intros [= <-].
  - apply (delete_task_effect _ _ (Some tk)). intros x [= <-]. right.
    simpl. by apply bool_decide_eq_true.
  - constructor; simpl.
    + exists []. split; [done|]. by intros ? ?%elem_of_nil.
    + exists []. split; [done|]. by intros ? ?%elem_of_nil.
    + intros info r Hr. exists r. rewrite lookup_insert_ne; [done|].
      intros <-. pose proof (inv_heap p I _ (mk_is_Some _ _ Hr)). lia.
    + intros x (info & r & Hr & Hx). simpl in Hr.
      apply lookup_insert_Some in Hr as [[<- <-]|[_ Hr]].
      * right. simpl in Hx. injection Hx as <-. by apply bool_decide_eq_true.
      * left. by exists info, r.
Qed.

Lemma WaitForTask_reclaim_effect o name info p p' :
  pool_of (WaitForTask_reclaim name info p) = Some p' → effect o p p'.
Proof.
  unfold WaitForTask_reclaim.
  destruct (heap p !! info) as [r|] eqn:Hr; [|done].
  destruct (finished r); [|done]. case_decide; [|done]. simpl. intros [= <-].
  eapply effect_trans; [apply (effect_same o p (with_tasks (delete name (tasks_ p)) p)); done|].
  apply delete_task_effect. intros x Hx. left. by exists info, r.
Qed.

Lemma WaitForTask_effect o name p p' :
  pool_of (WaitForTask name p) = Some p' → effect o p p'.
Proof.
  unfold WaitForTask.
  destruct (tasks_ p !! name) as [info|]; [|intros [= <-]; by apply effect_same].
  destruct (heap p !! info) as [r|] eqn:Hr; [|done].
  assert (E : effect o p (with_heap (<[info := set_waited r]> (heap p)) p)).
  { by apply (effect_update o p _ info r (set_waited r)). }
  destruct (finished r).
  - intros H. eapply effect_trans; [exact E|]. by eapply WaitForTask_reclaim_effect.
  - simpl. intros [= <-]. eapply effect_trans; [exact E|]. by apply effect_same.
Qed.

Lemma WaitForTask_wake_effect o i p p' :
  pool_of (WaitForTask_wake i p) = Some p' → effect o p p'.
Proof.
  unfold WaitForTask_wake.
  destruct (waiting p !! i) as [[name info]|]; [|done].
  destruct (WaitForTask_reclaim name info p) as [p1| | | | |] eqn:E; try done.
  - simpl. intros [= <-].
    eapply effect_trans; [eapply WaitForTask_reclaim_effect; rewrite E; reflexivity|].
    by apply effect_same.
  - exfalso. unfold WaitForTask_reclaim in E. repeat case_match; done.
  - exfalso. unfold WaitForTask_reclaim in E. repeat case_match; done.
Qed.

Lemma WorkerLoop_wake_effect o i p p' :
  pool_of (WorkerLoop_wake i p) = Some p' → effect o p p'.
Proof.
  unfold WorkerLoop_wake.
  destruct (threads_ p !! i) as [[| | |]|]; try done.
  destruct (negb _); [done|].
  destruct (stopping_ p && _); [intros [= <-]; by apply effect_same|].
  destruct (queue_ p) as [|name rest]; [done|].
  destruct (tasks_ p !! name) as [info|]; [|done].
  destruct (heap p !! info) as [r|] eqn:Hr; [|done].
  destruct (task r) as [tk|] eqn:Ht; [|done].
  simpl. intros [= <-].
  eapply effect_trans.
  { by apply (effect_update o p (with_heap (<[info := set_started r]> (heap p)) p)
                info r (set_started r)). }
  constructor; simpl.
  - exists [tk]. split; [done|]. intros ? ->%list_elem_of_singleton. left.
    exists info, (set_started r). simpl. by rewrite lookup_insert_eq.
  - exists []. split; [done|]. by intros ? ?%elem_of_nil.
  - intros j r0 H. by exists r0.
  - intros x Hx. by left.
Qed.

Lemma WorkerLoop_done_effect o i p p' :
  pool_of (WorkerLoop_done i p) = Some p' → effect o p p'.
Proof.
  unfold WorkerLoop_done.
  destruct (threads_ p !! i) as [[|info| |]|]; try done.
  destruct (heap p !! info) as [r|] eqn:Hr; [|done].
  destruct (task r) as [tk|]; [|done].
  destruct (catch_all (Run tk)); [|done].
  simpl. intros [= <-]. by apply (effect_update o p _ info r (set_finished r)).
Qed.

Lemma Stop_enter_effect o who p p' :
  pool_of (Stop_enter who p) = Some p' → effect o p p'.
Proof.
  unfold Stop_enter. destruct (stopping_ p); simpl; intros [= <-]; by apply effect_same.
Qed.

Lemma dtor_body_effect o p p' :
  pool_of (dtor_body p) = Some p' → effect o p p'.
Proof.
  intros H. destruct (dtor_body_Ok p _ eq_refl) as (l & E & _ & Hl); [congruence|].
  rewrite E in H. simpl in H. injection H as <-.
  constructor; simpl.
  - exists []. split; [done|]. by intros ? ?%elem_of_nil.
  - exists l. split; [done|]. intros x Hx. left.
    apply Hl in Hx as (k & info & r & _ & Hr & Ht). by exists info, r.
  - intros info r H. by exists r.
  - intros x Hx. by left.
Qed.

Lemma Stop_join_effect o p p' :
  pool_of (Stop_join p) = Some p' → effect o p p'.
Proof.
  unfold Stop_join. destruct (joiner p) as [who|]; [|done].
  destruct (join_all (threads_ p)) as [ts|]; [|done].
  destruct who.
  - simpl. intros [= <-]. by apply effect_same.
  - intros H. eapply effect_trans; [|by eapply dtor_body_effect].
    by apply effect_same.
Qed.

Lemma ThreadPool_delete_effect o p p' :
  pool_of (ThreadPool_delete p) = Some p' → effect o p p'.
Proof.
  unfold ThreadPool_delete. destruct (negb (stopping_ p)).
  - apply Stop_enter_effect.
  - apply dtor_body_effect.
Qed.

Lemma step_effect o p p' : pool_inv p → step o p p' → effect o p p'.
Proof.
  unfold step, run_op. intros I. destruct (destroyed p); [done|].
  destruct o.
  - by apply SubmitTask_effect.
  - apply WaitForTask_effect.
  - apply WaitForTask_wake_effect.
  - apply Stop_enter_effect.
  - apply Stop_join_effect.
  - apply ThreadPool_delete_effect.
  - apply WorkerLoop_wake_effect.
  - apply WorkerLoop_done_effect.
Qed.

(** A task the pool does not own and is not handed later is neither run
    nor deleted by the pool, whatever the schedule. *)
Lemma exec_untouched os p p' t :
  pool_inv p → exec os p = Some p' →
  ¬ owns p t → forallb (λ o, negb (submits t o)) os = true →
  (¬ owns p' t) ∧
  ∃ l1 l2, ran p' = l1 ++ ran p ∧ released p' = l2 ++ released p ∧
           (t ∉ l1) ∧ (t ∉ l2).
Proof.
  revert p; induction os as [|o os IH]; intros p I; simpl.
  - intros [= <-] Hn _. split; [done|]. exists [], []. repeat split; by try apply not_elem_of_nil.
  - destruct (pool_of (run_op o p)) as [p1|] eqn:E; [|done].
    intros H Hn [Ho Hos]%andb_true_iff. apply negb_true_iff in Ho.
    destruct (step_effect o p p1 I E) as [(l1 & E1 & O1) (l2 & E2 & O2) _ W].
    assert (Hn1 : ¬ owns p1 t).
    { intros Hx. destruct (W t Hx); [done|congruence]. }
    destruct (IH p1 (step_inv _ _ _ I E) H Hn1 Hos) as (Hn' & k1 & k2 & F1 & F2 & K1 & K2).
    split; [done|]. exists (k1 ++ l1), (k2 ++ l2).
    rewrite F1, F2, E1, E2, !app_assoc. repeat split.
    + intros [?|Hx]%elem_of_app; [done|]. destruct (O1 t Hx); [done|congruence].
    + intros [?|Hx]%elem_of_app; [done|]. destruct (O2 t Hx); [done|congruence].
Qed.

(** ** What transitions do to a registered task *)

(** A registry entry stays until it is reclaimed or the pool is destroyed;
    either way its name is not queued any more and its task is deleted. *)
Lemma WaitForTask_reclaim_tasks name' info' p p' name info r t :
  pool_inv p → pool_of (WaitForTask_reclaim name' info' p) = Some p' →
  tasks_ p !! name = Some info → heap p !! info = Some r → task r = Some t →
  tasks_ p' !! name = Some info ∨ ((name ∉ queue_ p) ∧ t ∈ released p').
Proof.
  intros I. unfold WaitForTask_reclaim.
  destruct (heap p !! info') as [r'|] eqn:Hr'; [|done].
  destruct (finished r') eqn:Hf; [|done]. case_decide as Hn'; [|done].
  simpl. intros [= <-] Hn Hr Ht.
  destruct (decide (name' = name)) as [->|Hne].
  - right. simplify_eq. split.
    + intros Hin. destruct (inv_queue p I name Hin) as (?&?&?&?&?&?&?&?). congruence.
    + rewrite Ht. simpl. by left.
  - left. destruct (task r'); simpl; by rewrite lookup_delete_ne.
Qed.

Lemma dtor_body_tasks p p' name info r t :
  pool_inv p → pool_of (dtor_body p) = Some p' →
  tasks_ p !! name = Some info → heap p !! info = Some r → task r = Some t →
  (name ∉ queue_ p) ∧ t ∈ released p'.
Proof.
  intros I H Hn Hr Ht.
  destruct (dtor_body_Ok p _ eq_refl) as (l & E & Hj & Hl); [congruence|].
  rewrite E in H. simpl in H. injection H as <-.
  destruct (all_joined_inv p I Hj) as [_ Hq]. split.
  - rewrite Hq. apply not_elem_of_nil.
  - simpl. apply elem_of_app. left. apply Hl. eauto 10.
Qed.

Lemma step_tasks o p p' name info r t :
  pool_inv p → step o p p' →
  tasks_ p !! name = Some info → heap p !! info = Some r → task r = Some t →
  tasks_ p' !! name = Some info ∨ ((name ∉ queue_ p) ∧ t ∈ released p').
Proof.
  unfold step, run_op. intros I. destruct (destroyed p) eqn:Hd; [done|].
  destruct o as [name' t'|name'|i| | | |i|i].
  - unfold SubmitTask. destruct t' as [tk|]; simpl; [|intros [= <-]; auto].
    destruct (stopping_ p); simpl; [intros [= <-]; auto|].
    destruct (tasks_ p !! name') eqn:Hn'; simpl; intros [= <-] Hn Hr Ht; left; simpl.
    + done.
    + rewrite lookup_insert_ne; [done|congruence].
  - unfold WaitForTask.
    destruct (tasks_ p !! name') as [info'|] eqn:Hn'; [|intros [= <-]; auto].
    destruct (heap p !! info') as [r'|] eqn:Hr'; [|done].
    destruct (finished r') eqn:Hf.
    + intros H Hn Hr Ht.
      assert (∃ r1, heap (with_heap (<[info' := set_waited r']> (heap p)) p) !! info
                    = Some r1 ∧ task r1 = Some t) as (r1 & Hr1 & Ht1).
      { simpl. destruct (decide (info' = info)) as [->|Hne].
        - exists (set_waited r'). rewrite lookup_insert_eq. simpl. split; congruence.
        - exists r. by rewrite lookup_insert_ne. }
      apply (WaitForTask_reclaim_tasks name' info'
               (with_heap (<[info' := set_waited r']> (heap p)) p) p' name info r1 t);
        [|done..].
      eapply heap_update_inv; eauto.
    + simpl. intros [= <-]. auto.
  - unfold WaitForTask_wake.
    destruct (waiting p !! i) as [[name' info']|]; [|done].
    destruct (WaitForTask_reclaim name' info' p) as [p1| | | | |] eqn:E; try done.
    + simpl. intros [= <-] Hn Hr Ht.
      eapply (WaitForTask_reclaim_tasks name' info' p p1 name info r t); eauto.
      by rewrite E.
    + exfalso. unfold WaitForTask_reclaim in E. repeat case_match; done.
    + exfalso. unfold WaitForTask_reclaim in E. repeat case_match; done.
  - unfold Stop, Stop_enter. destruct (stopping_ p); simpl; intros [= <-]; auto.
  - unfold Stop_join. destruct (joiner p) as [who|]; [|done].
    destruct (join_all (threads_ p)) as [ts|] eqn:E; [|done].
    destruct who; [simpl; intros [= <-]; auto|].
    intros H Hn Hr Ht. right.
    eapply (dtor_body_tasks (with_joiner None (with_threads ts p))); eauto.
    by apply joined_inv.
  - unfold ThreadPool_delete, Stop_enter. destruct (stopping_ p); simpl.
    + intros H Hn Hr Ht. right. by eapply dtor_body_tasks.
    + intros [= <-]. auto.
  - unfold WorkerLoop_wake. repeat case_match; try done; simpl; intros [= <-]; auto.
  - unfold WorkerLoop_done. repeat case_match; try done; simpl; intros [= <-]; auto.
Qed.

Lemma WaitForTask_reclaim_queue name info p p' :
  pool_of (WaitForTask_reclaim name info p) = Some p' → queue_ p' = queue_ p.
Proof.
  unfold WaitForTask_reclaim. repeat case_match; try done.
  simpl. intros [= <-]. by destruct (task _).
Qed.

Lemma dtor_body_queue p p' :
  pool_of (dtor_body p) = Some p' → queue_ p' = queue_ p.
Proof.
  intros H. destruct (dtor_body_Ok p _ eq_refl) as (l & E & _); [congruence|].
  rewrite E in H. simpl in H. by injection H as <-.
Qed.

(** A queued name stays queued until a worker dequeues it and runs its task. *)
Lemma step_queue o p p' name info r t :
  pool_inv p → step o p p' →
  name ∈ queue_ p →
  tasks_ p !! name = Some info → heap p !! info = Some r → task r = Some t →
  name ∈ queue_ p' ∨ t ∈ ran p'.
Proof.
  unfold step, run_op. intros I. destruct (destroyed p) eqn:Hd; [done|].
  destruct o as [name' t'|name'|i| | | |i|i].
  - unfold SubmitTask. destruct t' as [tk|]; simpl; [|intros [= <-]; auto].
    destruct (stopping_ p); simpl; [intros [= <-]; auto|].
    destruct (tasks_ p !! name'); simpl; intros [= <-] Hq; left; simpl; [done|].
    apply elem_of_app. by left.
  - unfold WaitForTask.
    destruct (tasks_ p !! name') as [info'|]; [|intros [= <-]; auto].
    destruct (heap p !! info') as [r'|]; [|done].
    destruct (finished r').
    + intros H%WaitForTask_reclaim_queue. rewrite H. auto.
    + simpl. intros [= <-]. auto.
  - unfold WaitForTask_wake.
    destruct (waiting p !! i) as [[name' info']|]; [|done].
    destruct (WaitForTask_reclaim name' info' p) as [p1| | | | |] eqn:E; try done.
    + simpl. intros [= <-]. simpl.
      rewrite (WaitForTask_reclaim_queue name' info' p p1); [auto|by rewrite E].
    + exfalso. unfold WaitForTask_reclaim in E. repeat case_match; done.
    + exfalso. unfold WaitForTask_reclaim in E. repeat case_match; done.
  - unfold Stop, Stop_enter. destruct (stopping_ p); simpl; intros [= <-]; auto.
  - unfold Stop_join. destruct (joiner p) as [who|]; [|done].
    destruct (join_all (threads_ p)) as [ts|] eqn:E; [|done].
    destruct who; [simpl; intros [= <-]; auto|].
    intros H%dtor_body_queue. rewrite H. auto.
  - unfold ThreadPool_delete, Stop_enter. destruct (stopping_ p); simpl.
    + intros H%dtor_body_queue. rewrite H. auto.
    + intros [= <-]. auto.
  - unfold WorkerLoop_wake.
    destruct (threads_ p !! i) as [[| | |]|]; try done.
    destruct (negb _); [done|].
    destruct (stopping_ p && _); [intros [= <-]; auto|].
    destruct (queue_ p) as [|name' rest]; [done|].
    destruct (tasks_ p !! name') as [info'|] eqn:Hn'; [|done].
    destruct (heap p !! info') as [r'|] eqn:Hr'; [|done].
    destruct (task r') as [tk|] eqn:Ht'; [|done].
    simpl. intros [= <-] Hq Hn Hr Ht. simpl.
    apply elem_of_cons in Hq as [->|Hq]; [|by left].
    right. simplify_eq. by left.
  - unfold WorkerLoop_done. repeat case_match; try done; simpl; intros [= <-]; auto.
Qed.

(** Along any schedule the fate of a registered task only advances. *)
Lemma step_fate o p p' name info r t :
  pool_inv p → step o p p' →
  heap p !! info = Some r → task r = Some t →
  task_fate name info t p → task_fate name info t p'.
Proof.
  intros I S Hr Ht.
  destruct (step_effect o p p' I S) as [(l1 & E1 & _) (l2 & E2 & _) _ _].
  assert (Hran : t ∈ ran p → t ∈ ran p').
  { intros H. rewrite E1. apply elem_of_app. by right. }
  assert (Hrel : t ∈ released p → t ∈ released p').
  { intros H. rewrite E2. apply elem_of_app. by right. }
  intros [[Hq Hn]|[Hx [Hn|Hx']]].
  - destruct (step_tasks o p p' name info r t I S Hn Hr Ht) as [Hn'|[? _]]; [|done].
    destruct (step_queue o p p' name info r t I S Hq Hn Hr Ht) as [Hq'|Hx].
    + left. done.
    + right. auto.
  - right. split; [auto|].
    destruct (step_tasks o p p' name info r t I S Hn Hr Ht) as [Hn'|[_ ?]]; auto.
  - right. auto.
Qed.

Lemma exec_fate os p p' name info r t :
  pool_inv p → exec os p = Some p' →
  heap p !! info = Some r → task r = Some t →
  task_fate name info t p → task_fate name info t p'.
Proof.
  revert p r; induction os as [|o os IH]; intros p r I; simpl.
  - by intros [= <-].
  - destruct (pool_of (run_op o p)) as [p1|] eqn:E; [|done].
    intros H Hr Ht Hf.
    destruct (eff_heap o p p1 (step_effect o p p1 I E) info r Hr) as (r1 & Hr1 & Ht1).
    apply (IH p1 r1); [by eapply step_inv|done|done|congruence|].
    by eapply step_fate.
Qed.

Lemma delete_all_is_Some kvs p :
  (∀ k info, (k, info) ∈ kvs → is_Some (heap p !! info)) →
  is_Some (delete_all kvs p).
Proof.
  revert p; induction kvs as [|[k info] kvs IH]; intros p H; simpl; [done|].
  destruct (H k info) as [r Hr]; [by left|]. rewrite Hr.
  apply IH. intros k' i' Hin.
  destruct (task r); simpl; apply (H k' i'); by right.
Qed.



(** ** The sample pools *)

Lemma new_pool_reachable n : (0 < n)%Z → reachable (new_pool n).
Proof.
  intros Hn. apply (reach_new n). unfold new_pool, ThreadPool_new.
  by destruct (Z.leb_spec n 0); [lia|].
Qed.

Lemma pool_queued_reachable : reachable pool_queued.
Proof.
  apply (exec_reachable [OSubmit "a" (Some count_task)] (new_pool 1)).
  - by apply new_pool_reachable.
  - vm_compute. reflexivity.
Qed.

Lemma pool_stopped_reachable : reachable pool_stopped.
Proof.
  apply (exec_reachable [OStop; OWorkerWake 0; OJoin] (new_pool 1)).
  - by apply new_pool_reachable.
  - vm_compute. reflexivity.
Qed.

Lemma pool_stopped_owns_nothing t : ¬ owns pool_stopped t.
Proof.
  intros (info & r & H & _).
  assert (E : heap pool_stopped = ∅) by (vm_compute; reflexivity).
  rewrite E in H. by apply lookup_empty_Some in H.
Qed.

Lemma pool_queued_owns t : owns pool_queued t → t = count_task.
Proof.
  intros (info & r & H & Ht).
  assert (E : heap pool_queued = {[0 := mkTaskInfo (Some count_task) false false false]})
    by (vm_compute; reflexivity).
  rewrite E in H. apply lookup_singleton_Some in H as [_ <-]. simpl in Ht. congruence.
Qed.

(** ** Construction *)

(** C7: [ThreadPool(num_threads)] throws the invalid-configuration error
    exactly when [num_threads <= 0]; otherwise it returns a pool in which
    exactly [num_threads] worker loops have been started, every one of them
    at the wait of its loop, with an empty queue and an empty registry. *)
Theorem ThreadPool_new_spec (n : Z) :
  (ThreadPool_new n = inl InvalidConfiguration ↔ (n ≤ 0)%Z) ∧
  (∀ e, ThreadPool_new n = inl e → e = InvalidConfiguration) ∧
  ((0 < n)%Z →
   ∃ p, ThreadPool_new n = inr p ∧
        Z.of_nat (length (threads_ p)) = n ∧ Forall (eq AtWait) (threads_ p) ∧
        queue_ p = [] ∧ tasks_ p = ∅ ∧ stopping_ p = false).
Proof.
  unfold ThreadPool_new. destruct (Z.leb_spec n 0) as [Hn|Hn].
  - split; [split; [lia|done]|]. split; [by intros e [= <-]|lia].
  - split; [split; [done|lia]|]. split; [done|]. intros _.
    eexists. split; [done|]. simpl. rewrite spawn_app. simpl.
    rewrite length_replicate. split; [lia|]. split; [|done].
    by apply Forall_replicate.
Qed.

Lemma ThreadPool_new_spec_witness :
  ∃ p, ThreadPool_new 4 = inr p ∧
       Z.of_nat (length (threads_ p)) = 4%Z ∧ Forall (eq AtWait) (threads_ p) ∧
       queue_ p = [] ∧ tasks_ p = ∅ ∧ stopping_ p = false.
Proof. apply (ThreadPool_new_spec 4). lia. Defined.

(** ** Submission *)

(** C10: a null task is rejected with the null-task error even when the
    pool is already stopping; the silent return of a stopping pool is not
    taken for it, and the pool is left as it was. *)
Theorem SubmitTask_null_when_stopping p name :
  stopping_ p = true →
  SubmitTask name None p = Throw NullTask p ∧ SubmitTask name None p ≠ Ok p.
Proof. intros _. by split. Qed.

Lemma SubmitTask_null_when_stopping_witness :
  SubmitTask "late" None pool_stopped = Throw NullTask pool_stopped ∧
  SubmitTask "late" None pool_stopped ≠ Ok pool_stopped.
Proof. apply SubmitTask_null_when_stopping. vm_compute; reflexivity. Defined.

(** C6: on a stopping pool the submission of a non-null task returns
    without an error and leaves the whole pool, registry and queue included,
    as it was; no record points to the task, so the pool has not taken it
    over, and unless the caller hands it over again the pool neither runs
    nor deletes it on any later schedule. *)
Theorem SubmitTask_when_stopping p name tk :
  stopping_ p = true →
  SubmitTask name (Some tk) p = Ok p ∧
  (reachable p → ¬ owns p tk →
   ∀ os p', forallb (λ o, negb (submits tk o)) os = true → exec os p = Some p' →
     ¬ owns p' tk ∧
     ∃ l1 l2, ran p' = l1 ++ ran p ∧ released p' = l2 ++ released p ∧
              (tk ∉ l1) ∧ (tk ∉ l2)).
Proof.
  intros Hs. split; [unfold SubmitTask; by rewrite Hs|].
  intros R Hn os p' Hos H.
  by apply (exec_untouched os p p' tk (reachable_inv p R)).
Qed.

Lemma SubmitTask_when_stopping_witness :
  SubmitTask "late" (Some count_task) pool_stopped = Ok pool_stopped ∧
  ¬ owns (after [OSubmit "x" (Some other_task); OWaitFor "late"; ODelete] pool_stopped)
         count_task.
Proof.
  assert (Hs : stopping_ pool_stopped = true) by (vm_compute; reflexivity).
  destruct (SubmitTask_when_stopping pool_stopped "late" count_task Hs) as [H1 H2].
  split; [exact H1|].
  apply (H2 pool_stopped_reachable (pool_stopped_owns_nothing _)
            [OSubmit "x" (Some other_task); OWaitFor "late"; ODelete]);
    vm_compute; reflexivity.
Defined.

(** C5: on a pool that is not stopping, submitting under a name that is
    still registered throws the duplicate-name error; the only change to
    the pool is one deletion of the rejected task.  The task is not
    registered, and unless the caller hands it over again the pool never
    runs it and never deletes it a second time. *)
Theorem SubmitTask_duplicate p name tk :
  stopping_ p = false → is_Some (tasks_ p !! name) →
  SubmitTask name (Some tk) p =
    Throw (DuplicateTaskName name) (with_released (tk :: released p) p) ∧
  (reachable p → ¬ owns p tk →
   ∀ os p', forallb (λ o, negb (submits tk o)) os = true →
     exec os (with_released (tk :: released p) p) = Some p' →
     ¬ owns p' tk ∧
     ∃ l1 l2, ran p' = l1 ++ ran p ∧ released p' = l2 ++ tk :: released p ∧
              (tk ∉ l1) ∧ (tk ∉ l2)).
Proof.
  intros Hs [info Hn]. split; [unfold SubmitTask; by rewrite Hs, Hn|].
  intros R Ho os p' Hos H.
  apply (exec_untouched os (with_released (tk :: released p) p) p' tk); try done.
  by apply pool_inv_ext with p, reachable_inv.
Qed.

Lemma SubmitTask_duplicate_witness :
  SubmitTask "a" (Some other_task) pool_queued =
    Throw (DuplicateTaskName "a")
          (with_released (other_task :: released pool_queued) pool_queued) ∧
  ¬ owns (after [OWorkerWake 0; OWorkerDone 0; OWaitFor "a"]
            (with_released (other_task :: released pool_queued) pool_queued))
         other_task.
Proof.
  assert (Hs : stopping_ pool_queued = false) by (vm_compute; reflexivity).
  assert (Hn : is_Some (tasks_ pool_queued !! "a")) by (exists 0; vm_compute; reflexivity).
  destruct (SubmitTask_duplicate pool_queued "a" other_task Hs Hn) as [H1 H2].
  split; [exact H1|].
  assert (Ho : ¬ owns pool_queued other_task).
  { intros H%pool_queued_owns. discriminate H. }
  apply (H2 pool_queued_reachable Ho [OWorkerWake 0; OWorkerDone 0; OWaitFor "a"]);
    vm_compute; reflexivity.
Defined.

(** ** Waiting *)

Lemma WaitForTask_reclaim_Ok name info p p' :
  WaitForTask_reclaim name info p = Ok p' →
  ∃ r, heap p !! info = Some r ∧ finished r = true ∧ tasks_ p !! name = Some info ∧
       p' = delete_task (task r) (with_tasks (delete name (tasks_ p)) p).
Proof.
  unfold WaitForTask_reclaim.
  destruct (heap p !! info) as [r|]; [|done].
  destruct (finished r) eqn:Hf; [|done]. case_decide; [|done].
  intros [= <-]. by exists r.
Qed.

Lemma tasks_delete_task t p : tasks_ (delete_task t p) = tasks_ p.
Proof. by destruct t. Qed.

Lemma WaitForTask_unknown name p :
  tasks_ p !! name = None → WaitForTask name p = Throw (UnknownTaskName name) p.
Proof. intros H. unfold WaitForTask. by rewrite H. Qed.

Lemma WaitForTask_finished name info r p :
  tasks_ p !! name = Some info → heap p !! info = Some r → finished r = true →
  WaitForTask name p =
    Ok (delete_task (task r)
          (with_tasks (delete name (tasks_ p))
             (with_heap (<[info := set_waited r]> (heap p)) p))).
Proof.
  intros Hn Hr Hf. unfold WaitForTask. rewrite Hn, Hr, Hf.
  unfold WaitForTask_reclaim. simpl. rewrite lookup_insert_eq. simpl. rewrite Hf.
  by rewrite decide_True.
Qed.

Lemma WaitForTask_Throw name p e p' :
  WaitForTask name p = Throw e p' →
  e = UnknownTaskName name ∧ p' = p ∧ tasks_ p !! name = None.
Proof.
  unfold WaitForTask. destruct (tasks_ p !! name) as [info|]; [|by intros [= <- <-]].
  destruct (heap p !! info) as [r|]; [|done].
  destruct (finished r); [|done].
  unfold WaitForTask_reclaim. by repeat case_match.
Qed.

(** ** Stopping *)

(** C8: once the stopping flag is set, a call of [Stop] returns at once
    without an error and leaves the pool as it was; in particular a second
    call of [Stop], made in the state the first one produced, does so. *)
Theorem Stop_idempotent p :
  (stopping_ p = true → Stop p = Ok p) ∧
  (∀ p1, pool_of (Stop p) = Some p1 → stopping_ p1 = true ∧ Stop p1 = Ok p1).
Proof.
  unfold Stop, Stop_enter. split.
  - by intros ->.
  - intros p1. destruct (stopping_ p) eqn:Hs; simpl; intros [= <-]; simpl.
    + by rewrite Hs.
    + done.
Qed.

Lemma Stop_idempotent_witness : Stop pool_stopped = Ok pool_stopped.
Proof. apply (Stop_idempotent pool_stopped). vm_compute; reflexivity. Defined.

(** ** The worker loop *)

Lemma WorkerLoop_wake_dequeue i name rest p :
  pool_inv p → threads_ p !! i = Some AtWait → queue_ p = name :: rest →
  ∃ info r tk,
    tasks_ p !! name = Some info ∧ heap p !! info = Some r ∧ task r = Some tk ∧
    WorkerLoop_wake i p =
      Pending (with_ran (tk :: ran p)
                 (with_threads (<[i := InRun info]> (threads_ p))
                    (with_heap (<[info := set_started r]> (heap p))
                       (with_queue rest p)))).
Proof.
  intros I Hi Hq.
  destruct (inv_queue p I name) as (info & r & tk & Hn & Hr & Ht & _);
    [rewrite Hq; by left|].
  exists info, r, tk. repeat split; try done.
  unfold WorkerLoop_wake. rewrite Hi, Hq, Hn, Hr, Ht.
  rewrite bool_decide_eq_false_2 by done.
  by rewrite orb_true_r, andb_false_r.
Qed.


Lemma WorkerLoop_done_Pending i info r tk p :
  threads_ p !! i = Some (InRun info) → heap p !! info = Some r → task r = Some tk →
  WorkerLoop_done i p =
    Pending (with_threads (<[i := AtWait]> (threads_ p))
               (with_heap (<[info := set_finished r]> (heap p)) p)).
Proof.
  intros Hi Hr Ht. unfold WorkerLoop_done. rewrite Hi, Hr, Ht. by destruct (Run tk).
Qed.

(** C4: when the [Run] of a task throws, the worker swallows the exception,
    sets the [finished] flag of the record all the same, and is back at the
    wait of its loop: a caller waiting for that record resumes and returns
    normally, and the worker dequeues the next queued name.  The only
    exceptions [SubmitTask] and [WaitForTask] throw are their own
    argument errors, and [Stop] throws none. *)
Theorem WorkerLoop_contains_fault p i info r tk e :
  threads_ p !! i = Some (InRun info) → heap p !! info = Some r →
  task r = Some tk → Run tk = Throws e →
  ∃ p', WorkerLoop_done i p = Pending p' ∧
    p' = with_threads (<[i := AtWait]> (threads_ p))
           (with_heap (<[info := set_finished r]> (heap p)) p) ∧
    heap p' !! info = Some (set_finished r) ∧
    threads_ p' !! i = Some AtWait ∧
    (∀ j name, waiting p !! j = Some (name, info) → tasks_ p !! name = Some info →
       ∃ p'', WaitForTask_wake j p' = Ok p'') ∧
    (pool_inv p → ∀ name rest, queue_ p = name :: rest →
       ∃ p'' info', WorkerLoop_wake i p' = Pending p'' ∧ queue_ p'' = rest ∧
                    threads_ p'' !! i = Some (InRun info')) ∧
    (∀ q name t e' q', SubmitTask name t q = Throw e' q' →
       e' = NullTask ∨ e' = DuplicateTaskName name) ∧
    (∀ q name e' q', WaitForTask name q = Throw e' q' → e' = UnknownTaskName name) ∧
    (∀ q j e' q', WaitForTask_wake j q ≠ Throw e' q') ∧
    (∀ q e' q', Stop q ≠ Throw e' q' ∧ Stop_join q ≠ Throw e' q').
Proof.
  intros Hi Hr Ht He. eexists. split; [by eapply WorkerLoop_done_Pending|].
  split; [done|]. simpl.
  assert (Hlt : i < length (threads_ p)) by (by eapply lookup_lt_Some).
  split; [by rewrite lookup_insert_eq|].
  split; [by apply list_lookup_insert_eq|].
  split; [|split; [|split; [|split; [|split]]]].
  - intros j name Hj Hn. unfold WaitForTask_wake, WaitForTask_reclaim. simpl.
    rewrite Hj, lookup_insert_eq. simpl. rewrite decide_True by done. eauto.
  - intros I name rest Hq.
    destruct (inv_queue p I name) as (info' & r' & tk' & Hn & Hr' & Ht' & _);
      [rewrite Hq; by left|].
    unfold WorkerLoop_wake. simpl.
    rewrite list_lookup_insert_eq, Hq, Hn by done.
    rewrite bool_decide_eq_false_2 by done. rewrite orb_true_r, andb_false_r. simpl.
    destruct (decide (info = info')) as [<-|Hne].
    + rewrite lookup_insert_eq. simpl. simplify_eq. rewrite Ht.
      eexists _, _. split; [done|]. simpl. split; [done|].
      apply list_lookup_insert_eq. by rewrite length_insert.
    + rewrite lookup_insert_ne, Hr', Ht' by done.
      eexists _, _. split; [done|]. simpl. split; [done|].
      apply list_lookup_insert_eq. by rewrite length_insert.
  - intros q name t e' q'. unfold SubmitTask. repeat case_match; try done; intros [= <- _]; auto.
  - intros q name e' q' H. by apply WaitForTask_Throw in H as (? & _).
  - intros q j e' q'. unfold WaitForTask_wake, WaitForTask_reclaim. by repeat case_match.
  - intros q e' q'. unfold Stop, Stop_enter, Stop_join, dtor_body.
    split; by repeat case_match.
Qed.

Lemma pool_faulting_reachable : reachable pool_faulting.
Proof.
  apply (exec_reachable
           [OSubmit "f" (Some faulty_task); OSubmit "a" (Some count_task);
            OWorkerWake 0; OWaitFor "f"] (new_pool 1)).
  - by apply (reach_new 1).
  - vm_compute. reflexivity.
Qed.

Lemma WorkerLoop_contains_fault_witness :
  ∃ p', WorkerLoop_done 0 pool_faulting = Pending p' ∧
        (∃ p'', WaitForTask_wake 0 p' = Ok p'') ∧
        (∃ p'' info', WorkerLoop_wake 0 p' = Pending p'' ∧ queue_ p'' = [] ∧
                      threads_ p'' !! 0 = Some (InRun info')).
Proof.
  destruct (WorkerLoop_contains_fault pool_faulting 0 0
              (mkTaskInfo (Some faulty_task) true false true) faulty_task
              (runtime_error "boom"))
    as (p' & H1 & _ & _ & _ & H2 & H3 & _); try (vm_compute; reflexivity).
  exists p'. split; [exact H1|]. split.
  - apply (H2 0 "f"); vm_compute; reflexivity.
  - apply (H3 (reachable_inv _ pool_faulting_reachable) "a" []). vm_compute; reflexivity.
Defined.






(** ** The queue and the registry *)

(** C9: in every state of a constructed pool each queued name is
    registered, and its record holds a task and is neither started nor
    finished; a waiter therefore never erases the record of a queued name,
    and a worker that dequeues a name finds its record: taking a name off
    the queue never runs into the inserting lookup of a missing entry. *)
Theorem queued_names_registered p :
  reachable p →
  (∀ name, name ∈ queue_ p →
     ∃ info r tk, tasks_ p !! name = Some info ∧ heap p !! info = Some r ∧
                  task r = Some tk ∧ started r = false ∧ finished r = false) ∧
  (∀ name info p', name ∈ queue_ p → WaitForTask_reclaim name info p ≠ Ok p') ∧
  (∀ i, crashed (WorkerLoop_wake i p) = false) ∧
  (∀ i name rest, threads_ p !! i = Some AtWait → queue_ p = name :: rest →
     ∃ p' info, WorkerLoop_wake i p = Pending p' ∧ tasks_ p !! name = Some info ∧
                tasks_ p' = tasks_ p ∧ threads_ p' !! i = Some (InRun info)).
Proof.
  intros R. pose proof (reachable_inv p R) as I.
  split; [apply (inv_queue p I)|]. split; [|split].
  - intros name info p' Hin H.
    apply WaitForTask_reclaim_Ok in H as (r & Hr & Hf & Hn & _).
    destruct (inv_queue p I name Hin) as (?&?&?&?&?&?&?&?). congruence.
  - intros i. unfold WorkerLoop_wake.
    destruct (threads_ p !! i) as [[| | |]|] eqn:Hi; try done.
    destruct (queue_ p) as [|name rest] eqn:Hq.
    + rewrite bool_decide_eq_true_2 by done. by destruct (stopping_ p).
    + destruct (WorkerLoop_wake_dequeue i name rest p I Hi Hq) as (?&?&?&_&_&_&E).
      unfold WorkerLoop_wake in E. rewrite Hi, Hq in E. by rewrite E.
  - intros i name rest Hi Hq.
    destruct (WorkerLoop_wake_dequeue i name rest p I Hi Hq)
      as (info & r & tk & Hn & Hr & Ht & E).
    eexists _, info. split; [exact E|]. simpl. repeat split; try done.
    apply list_lookup_insert_eq. by eapply lookup_lt_Some.
Qed.

Lemma queued_names_registered_witness :
  ∃ info r tk, tasks_ pool_queued !! "a" = Some info ∧
               heap pool_queued !! info = Some r ∧
               task r = Some tk ∧ started r = false ∧ finished r = false.
Proof.
  destruct (queued_names_registered pool_queued pool_queued_reachable) as [H _].
  apply (H "a"). vm_compute. by left.
Defined.

(** ** Counting the workers still in their loop *)

Lemma threads_weight_insert ts i t t' :
  ts !! i = Some t →
  threads_weight (<[i := t']> ts) + thread_weight t =
  threads_weight ts + thread_weight t'.
Proof.
  revert i; induction ts as [|t0 ts IH]; intros [|i]; simpl; try done.
  - intros [= ->]. lia.
  - intros Hi. specialize (IH i Hi). lia.
Qed.

Lemma find_live ts :
  (∃ i t, ts !! i = Some t ∧ 0 < thread_weight t) ∨
  Forall (λ t, t = Exited ∨ t = Joined) ts.
Proof.
  induction ts as [|t ts [(i & t' & Hi & Hw)|IH]].
  - right. constructor.
  - left. by exists (S i), t'.
  - destruct t.
    + left. exists 0, AtWait. simpl. split; [done|lia].
    + left. exists 0, (InRun info). simpl. split; [done|lia].
    + right. constructor; auto.
    + right. constructor; auto.
Qed.

(** ** Destruction *)

Lemma destroyed_inv p :
  pool_inv p → destroyed p = true →
  tasks_ p = ∅ ∧ queue_ p = [] ∧ stopping_ p = true.
Proof.
  intros I Hd. destruct (inv_destroyed p I Hd) as [Ht Hj]. split; [done|].
  pose proof (inv_threads p I) as Hne.
  destruct (threads_ p) as [|t ts] eqn:E; [done|].
  apply Forall_cons in Hj as [<- _].
  destruct (inv_exit p I 0) as [? ?]; [rewrite E; by right|done].
Qed.








Lemma pool_queued_task : queued_task pool_queued "a" count_task.
Proof.
  split; [vm_compute; by left|].
  exists 0, (mkTaskInfo (Some count_task) false false false).
  repeat split; vm_compute; reflexivity.
Qed.



(** * Further properties of the pool *)

(** ** The shape of a transition *)

Lemma WaitForTask_reclaim_transition name info p p' :
  pool_of (WaitForTask_reclaim name info p) = Some p' →
  ∃ r, tasks_ p !! name = Some info ∧ heap p !! info = Some r ∧ finished r = true ∧
       tasks_ p' = delete name (tasks_ p) ∧ heap p' = heap p ∧
       queue_ p' = queue_ p ∧ threads_ p' = threads_ p ∧ ran p' = ran p ∧
       stopping_ p' = stopping_ p ∧ destroyed p' = destroyed p.
Proof.
  unfold WaitForTask_reclaim.
  destruct (heap p !! info) as [r|] eqn:Hr; [|done].
  destruct (finished r) eqn:Hf; [|done]. case_decide as Hn; [|done].
  simpl. intros [= <-]. exists r. by destruct (task r).
Qed.

Lemma dtor_body_transition p p' :
  pool_of (dtor_body p) = Some p' →
  threads_ p = replicate (length (threads_ p)) Joined ∧
  threads_ p' = threads_ p ∧ tasks_ p' = ∅ ∧ destroyed p' = true ∧
  queue_ p' = queue_ p ∧ heap p' = heap p ∧ ran p' = ran p ∧
  stopping_ p' = stopping_ p.
Proof.
  intros H. destruct (dtor_body_Ok p _ eq_refl) as (l & E & Hj & _); [congruence|].
  rewrite E in H. simpl in H. by injection H as <-.
Qed.

Lemma Forall_exited_replicate n : Forall exited (replicate n Joined).
Proof. apply Forall_replicate. by right. Qed.

(** Every transition has one of the shapes of [transition]. *)
Lemma step_transition o p p' : pool_inv p → step o p p' → transition p p'.
Proof.
  unfold step, run_op. intros I. destruct (destroyed p) eqn:Hd; [done|].
  destruct o as [name t|name|i| | | |i|i].
  - unfold SubmitTask. destruct t as [tk|]; [|intros [= <-]; by apply tr_frame].
    destruct (stopping_ p) eqn:Hs; [intros [= <-]; by apply tr_frame|].
    destruct (tasks_ p !! name) eqn:Hn; simpl; intros [= <-].
    + by apply tr_frame.
    + apply (tr_submit _ _ name tk); try done.
      destruct (heap p !! next_info p) eqn:E; [|done].
      pose proof (inv_heap p I _ (mk_is_Some _ _ E)). lia.
  - unfold WaitForTask.
    destruct (tasks_ p !! name) as [info|] eqn:Hn; [|intros [= <-]; by apply tr_frame].
    destruct (heap p !! info) as [r|] eqn:Hr; [|done].
    destruct (finished r) eqn:Hf.
    + intros H. apply WaitForTask_reclaim_transition in H
        as (r1 & _ & _ & _ & H1 & H2 & H3 & H4 & H5 & _).
      simpl in *. apply (tr_reclaim _ _ name info r); auto.
    + simpl. intros [= <-]. by apply (tr_waited _ _ name info r).
  - unfold WaitForTask_wake.
    destruct (waiting p !! i) as [[name info]|]; [|done].
    destruct (WaitForTask_reclaim name info p) as [p1|e p1|p1| | |] eqn:E; try done.
    + simpl. intros [= <-].
      destruct (WaitForTask_reclaim_transition name info p p1)
        as (r & Hn & Hr & Hf & H1 & H2 & H3 & H4 & H5 & _); [by rewrite E|].
      apply (tr_reclaim _ _ name info r); simpl; auto.
    + exfalso. unfold WaitForTask_reclaim in E. repeat case_match; done.
    + exfalso. unfold WaitForTask_reclaim in E. repeat case_match; done.
  - unfold Stop, Stop_enter. destruct (stopping_ p); simpl; intros [= <-]; by apply tr_frame.
  - unfold Stop_join. destruct (joiner p) as [who|]; [|done].
    destruct (join_all (threads_ p)) as [ts|] eqn:E; [|done].
    apply join_all_Some in E as [Hall ->].
    destruct who.
    + simpl. intros [= <-]. by apply tr_join.
    + intros H. apply dtor_body_transition in H as (_ & H1 & H2 & H3 & H4 & H5 & H6 & _).
      simpl in *. by apply tr_destroy.
  - unfold ThreadPool_delete, Stop_enter. destruct (stopping_ p); simpl.
    + intros H. apply dtor_body_transition in H as (H0 & H1 & H2 & H3 & H4 & H5 & H6 & _).
      apply tr_destroy; try done.
      * rewrite H0. apply Forall_exited_replicate.
      * congruence.
    + intros [= <-]. by apply tr_frame.
  - unfold WorkerLoop_wake.
    destruct (threads_ p !! i) as [[| | |]|] eqn:Hi; try done.
    destruct (negb _); [done|].
    destruct (stopping_ p && bool_decide (queue_ p = [])) eqn:Hx.
    + apply andb_true_iff in Hx as [Hs Hq%bool_decide_eq_true].
      simpl. intros [= <-]. by apply (tr_exit _ _ i).
    + destruct (queue_ p) as [|name rest] eqn:Hq; [done|].
      destruct (tasks_ p !! name) as [info|] eqn:Hn; [|done].
      destruct (heap p !! info) as [r|] eqn:Hr; [|done].
      destruct (task r) as [tk|] eqn:Ht; [|done].
      simpl. intros [= <-]. by apply (tr_dequeue _ _ i name rest info r tk).
  - unfold WorkerLoop_done.
    destruct (threads_ p !! i) as [[|info| |]|] eqn:Hi; try done.
    destruct (heap p !! info) as [r|] eqn:Hr; [|done].
    destruct (task r) as [tk|]; [|done].
    destruct (catch_all (Run tk)); [|done].
    simpl. intros [= <-]. by apply (tr_done _ _ i info r).
Qed.

(** ** The life of a record *)

Lemma evolves_refl r : evolves r r.
Proof. by repeat split. Qed.

Lemma evolves_trans r1 r2 r3 : evolves r1 r2 → evolves r2 r3 → evolves r1 r3.
Proof.
  intros (H1 & H2 & H3 & H4) (K1 & K2 & K3 & K4).
  repeat split; [congruence|auto..].
Qed.

Lemma insert_evolves (h : gmap nat TaskInfo) i r r' x rx :
  h !! i = Some r → evolves r r' → h !! x = Some rx →
  ∃ rx', <[i := r']> h !! x = Some rx' ∧ evolves rx rx'.
Proof.
  intros Hi He Hx. destruct (decide (i = x)) as [->|Hne].
  - exists r'. rewrite lookup_insert_eq. simplify_eq. done.
  - exists rx. rewrite lookup_insert_ne by done. split; [done|apply evolves_refl].
Qed.

Lemma transition_evolves p p' info r :
  transition p p' → heap p !! info = Some r →
  ∃ r', heap p' !! info = Some r' ∧ evolves r r'.
Proof.
  intros T Hr.
  destruct T as [_ _ _ Hh _| name t _ _ Hfresh _ _ Hh _ _
                | name i0 r0 _ Hr0 Hh _ _ _ _
                | name i0 r0 _ Hr0 _ _ [Hh|Hh] _ _ _
                | i _ _ _ _ _ _ Hh _
                | i name rest i0 r0 t _ _ _ Hr0 _ _ Hh _ _ _
                | i i0 r0 _ Hr0 Hh _ _ _ _
                | _ _ _ _ Hh _ | _ _ _ _ _ Hh _]; rewrite Hh;
    try (exists r; split; [done|apply evolves_refl]).
  - exists r. rewrite lookup_insert_ne by congruence. split; [done|apply evolves_refl].
  - by apply (insert_evolves _ i0 r0).
  - by apply (insert_evolves _ i0 r0).
  - by apply (insert_evolves _ i0 r0).
  - by apply (insert_evolves _ i0 r0).
Qed.

Lemma exec_evolves os p p' info r :
  pool_inv p → exec os p = Some p' → heap p !! info = Some r →
  ∃ r', heap p' !! info = Some r' ∧ evolves r r'.
Proof.
  revert p r; induction os as [|o os IH]; intros p r I; simpl.
  - intros [= <-] Hr. exists r. split; [done|apply evolves_refl].
  - destruct (pool_of (run_op o p)) as [p1|] eqn:E; [|done]. intros H Hr.
    destruct (transition_evolves p p1 info r (step_transition o p p1 I E) Hr)
      as (r1 & Hr1 & E1).
    destruct (IH p1 r1 (step_inv _ _ _ I E) H Hr1) as (r' & Hr' & E').
    exists r'. split; [done|]. by eapply evolves_trans.
Qed.

Lemma ThreadPool_new_life n p : ThreadPool_new n = inr p → life_inv p.
Proof.
  unfold ThreadPool_new. destruct (Z.leb_spec n 0) as [|Hn]; [done|].
  intros [= <-]. rewrite spawn_app. simpl.
  constructor; simpl.
  - by intros ?? ?%lookup_empty_Some.
  - by intros ?? ?%lookup_empty_Some.
  - by intros ??? ?%lookup_empty_Some.
  - intros i info H. by apply lookup_replicate in H as [? _].
  - intros i j info H. by apply lookup_replicate in H as [? _].
Qed.

Lemma lookup_Joined_InRun n i info : replicate n Joined !! i ≠ Some (InRun info).
Proof. intros H. by apply lookup_replicate in H as [? _]. Qed.

Lemma Forall_exited_InRun ts i info :
  Forall exited ts → ts !! i ≠ Some (InRun info).
Proof.
  intros Hall Hi. rewrite Forall_lookup in Hall.
  destruct (Hall i _ Hi); done.
Qed.

Lemma transition_life p p' :
  pool_inv p → life_inv p → transition p p' → life_inv p'.
Proof.
  intros I L T.
  destruct T as [Hq Ht Hth Hh _
                | name t _ Hn Hfresh Hq Ht Hh Hth _
                | name i0 r0 Hn0 Hr0 Hh Hq Ht Hth _
                | name i0 r0 Hn0 Hr0 Hf0 Ht Hh Hq Hth _
                | i Hi _ _ Hth Hq Ht Hh _
                | i name rest i0 r0 t Hi Hq0 Hn0 Hr0 Ht0 Hq Hh Hth _ Ht
                | i i0 r0 Hi Hr0 Hh Hth Hq Ht _
                | Hall Hth Hq Ht Hh _
                | Hall Hth Ht _ Hq Hh _].
  - (* nothing of the registry, the queue, the threads or the heap moves *)
    constructor; rewrite ?Hq, ?Ht, ?Hth, ?Hh; apply L.
  - (* a record is registered and its name queued *)
    assert (Hold : ∀ x rx, heap p !! x = Some rx → next_info p ≠ x) by (intros; congruence).
    constructor; rewrite ?Hq, ?Ht, ?Hth, ?Hh.
    + intros x rx [[<- <-]|[_ H]]%lookup_insert_Some; [by eexists|by eapply (li_task p L)].
    + intros x rx [[<- <-]|[_ H]]%lookup_insert_Some; [done|by eapply (li_finished p L)].
    + intros n x rx [[<- <-]|[Hne Hx]]%lookup_insert_Some Hrx Hfx.
      * left. apply elem_of_app. right. by apply list_elem_of_singleton.
      * destruct (inv_reg p I n x Hx) as [r1 Hr1].
        rewrite lookup_insert_ne in Hrx by (by eapply Hold). 
        destruct (li_pending p L n x rx Hx Hrx Hfx) as [?|?]; [|by right].
        left. apply elem_of_app. by left.
    + intros j x Hj. destruct (li_held p L j x Hj) as (n & rx & Hx & Hrx & Hfx).
      exists n, rx. rewrite !lookup_insert_ne; [done|by eapply Hold|congruence].
    + apply L.
  - (* a caller marks a record as waited for *)
    constructor; rewrite ?Hq, ?Ht, ?Hth, ?Hh.
    + intros x rx [[<- <-]|[_ H]]%lookup_insert_Some;
        [by apply (li_task p L i0 r0)|by eapply (li_task p L)].
    + intros x rx [[<- <-]|[_ H]]%lookup_insert_Some;
        [by apply (li_finished p L i0 r0)|by eapply (li_finished p L)].
    + intros n x rx Hx [[<- <-]|[_ H]]%lookup_insert_Some Hfx;
        [by apply (li_pending p L n i0 r0)|by eapply (li_pending p L)].
    + intros j x Hj. destruct (li_held p L j x Hj) as (n & rx & Hx & Hrx & Hfx).
      destruct (decide (i0 = x)) as [->|Hne].
      * exists n, (set_waited r0). rewrite lookup_insert_eq. by simplify_eq.
      * exists n, rx. by rewrite lookup_insert_ne.
    + apply L.
  - (* a finished record is erased *)
    assert (Hh' : ∀ x rx, x ≠ i0 → heap p' !! x = Some rx → heap p !! x = Some rx).
    { intros x rx Hne. destruct Hh as [-> | ->]; [done|]. by rewrite lookup_insert_ne. }
    assert (Hh0 : ∀ rx, heap p' !! i0 = Some rx →
                        task rx = task r0 ∧ started rx = started r0 ∧
                        finished rx = true).
    { intros rx. destruct Hh as [-> | ->].
      - rewrite Hr0. by intros [= <-].
      - rewrite lookup_insert_eq. by intros [= <-]. }
    constructor; rewrite ?Hq, ?Ht, ?Hth.
    + intros x rx Hx. destruct (decide (x = i0)) as [->|Hne].
      * destruct (Hh0 rx Hx) as (-> & _). by apply (li_task p L i0 r0).
      * apply (li_task p L x rx). by apply Hh'.
    + intros x rx Hx Hfx. destruct (decide (x = i0)) as [->|Hne].
      * destruct (Hh0 rx Hx) as (_ & -> & _). by apply (li_finished p L i0 r0).
      * apply (li_finished p L x rx); [by apply Hh'|done].
    + intros n x rx [Hne Hx]%lookup_delete_Some Hrx Hfx.
      destruct (decide (x = i0)) as [->|Hne'].
      * destruct (Hh0 rx Hrx) as (_ & _ & ?). congruence.
      * apply (li_pending p L n x rx); [done|by apply Hh'|done].
    + intros j x Hj. destruct (li_held p L j x Hj) as (n & rx & Hx & Hrx & Hfx).
      assert (x ≠ i0) by congruence.
      exists n, rx. rewrite lookup_delete_ne by congruence.
      repeat split; try done.
      destruct Hh as [-> | ->]; [done|]. by rewrite lookup_insert_ne.
    + apply L.
  - (* a worker leaves its loop *)
    constructor; rewrite ?Hq, ?Ht, ?Hth, ?Hh; try apply L.
    + intros n x rx Hx Hrx Hfx.
      destruct (li_pending p L n x rx Hx Hrx Hfx) as [?|[j Hj]]; [by left|].
      right. exists j. rewrite list_lookup_insert_ne; [done|congruence].
    + intros j x [(_ & ? & _)|[_ Hj]]%list_lookup_insert_Some; [done|].
      by apply (li_held p L j).
    + intros j1 j2 x [(_ & ? & _)|[_ H1]]%list_lookup_insert_Some; [done|].
      intros [(_ & ? & _)|[_ H2]]%list_lookup_insert_Some; [done|].
      by apply (li_unique p L j1 j2 x).
  - (* a worker dequeues a name and starts its task *)
    assert (Hlt : i < length (threads_ p)) by (by eapply lookup_lt_Some).
    destruct (inv_queue p I name) as (i1 & r1 & t1 & Hn1 & Hr1 & _ & Hs1 & Hf1);
      [rewrite Hq0; by left|].
    simplify_eq.
    assert (Hother : ∀ j x, j ≠ i → threads_ p !! j = Some (InRun x) → x ≠ i0).
    { intros j x _ Hj ->. destruct (inv_worker p I j i0 Hj) as (rx & ? & ? & _).
      congruence. }
    constructor; rewrite ?Hq, ?Ht, ?Hth, ?Hh.
    + intros x rx [[<- <-]|[_ H]]%lookup_insert_Some;
        [by apply (li_task p L i0 r0)|by eapply (li_task p L)].
    + intros x rx [[<- <-]|[_ H]]%lookup_insert_Some; [done|by eapply (li_finished p L)].
    + intros n x rx Hx [[<- <-]|[Hne Hrx]]%lookup_insert_Some Hfx.
      * right. exists i. by apply list_lookup_insert_eq.
      * destruct (li_pending p L n x rx Hx Hrx Hfx) as [Hin|[j Hj]].
        -- rewrite Hq0 in Hin. apply elem_of_cons in Hin as [->|Hin]; [congruence|by left].
        -- right. exists j. rewrite list_lookup_insert_ne; [done|congruence].
    + intros j x [(_ & [= <-] & _)|[Hne Hj]]%list_lookup_insert_Some.
      * exists name, (set_started r0). by rewrite lookup_insert_eq.
      * destruct (li_held p L j x Hj) as (n & rx & Hx & Hrx & Hfx).
        exists n, rx. rewrite lookup_insert_ne; [done|].
        intros <-. by eapply (Hother j i0).
    + intros j1 j2 x H1 H2.
      apply list_lookup_insert_Some in H1 as [(E1 & E1' & _)|[Hne1 H1]];
        apply list_lookup_insert_Some in H2 as [(E2 & E2' & _)|[Hne2 H2]].
      * congruence.
      * exfalso. injection E1' as <-. by eapply (Hother j2 i0).
      * exfalso. injection E2' as <-. by eapply (Hother j1 i0).
      * by apply (li_unique p L j1 j2 x).
  - (* a worker ends a run and marks the record finished *)
    assert (Hlt : i < length (threads_ p)) by (by eapply lookup_lt_Some).
    destruct (inv_worker p I i i0 Hi) as (r1 & Hr1 & Hs1 & _). simplify_eq.
    constructor; rewrite ?Hq, ?Ht, ?Hth, ?Hh.
    + intros x rx [[<- <-]|[_ H]]%lookup_insert_Some;
        [by apply (li_task p L i0 r0)|by eapply (li_task p L)].
    + intros x rx [[<- <-]|[_ H]]%lookup_insert_Some; [done|by eapply (li_finished p L)].
    + intros n x rx Hx [[<- <-]|[Hne Hrx]]%lookup_insert_Some Hfx; [done|].
      destruct (li_pending p L n x rx Hx Hrx Hfx) as [Hin|[j Hj]]; [by left|].
      right. exists j. rewrite list_lookup_insert_ne; [done|]. intros <-. congruence.
    + intros j x [(_ & ? & _)|[Hne Hj]]%list_lookup_insert_Some; [done|].
      destruct (li_held p L j x Hj) as (n & rx & Hx & Hrx & Hfx).
      exists n, rx. rewrite lookup_insert_ne; [done|].
      intros <-. apply Hne. by apply (li_unique p L i j i0).
    + intros j1 j2 x [(_ & ? & _)|[_ H1]]%list_lookup_insert_Some; [done|].
      intros [(_ & ? & _)|[_ H2]]%list_lookup_insert_Some; [done|].
      by apply (li_unique p L j1 j2 x).
  - (* the join loop of Stop completes *)
    constructor; rewrite ?Hq, ?Ht, ?Hth, ?Hh; try apply L.
    + intros n x rx Hx Hrx Hfx.
      destruct (li_pending p L n x rx Hx Hrx Hfx) as [?|[j Hj]]; [by left|].
      by apply Forall_exited_InRun in Hj.
    + intros j x Hj. by apply lookup_Joined_InRun in Hj.
    + intros j1 j2 x Hj. by apply lookup_Joined_InRun in Hj.
  - (* the destructor empties the registry *)
    constructor; rewrite ?Hq, ?Ht, ?Hth, ?Hh; try apply L.
    + by intros n x rx ?%lookup_empty_Some.
    + intros j x Hj. by apply lookup_Joined_InRun in Hj.
    + intros j1 j2 x Hj. by apply lookup_Joined_InRun in Hj.
Qed.

Lemma reachable_life p : reachable p → life_inv p.
Proof.
  induction 1 as [n p H|o p p' R IH H].
  - by eapply ThreadPool_new_life.
  - pose proof (reachable_inv p R) as I.
    eapply transition_life; [exact I|exact IH|by eapply step_transition].
Qed.

(** ** Runs and started records *)

Lemma started_in_update (h : gmap nat TaskInfo) i r r' x :
  h !! i = Some r → started r' = started r →
  started_in (<[i := r']> h) x ↔ started_in h x.
Proof.
  intros Hi Hs. unfold started_in. destruct (decide (i = x)) as [->|Hne].
  - rewrite lookup_insert_eq. split.
    + intros (? & [= <-] & ?). exists r. split; [done|congruence].
    + intros (? & ? & ?). simplify_eq. exists r'. split; [done|congruence].
  - by rewrite lookup_insert_ne.
Qed.

Lemma started_in_fresh (h : gmap nat TaskInfo) i r' x :
  h !! i = None → started r' = false →
  started_in (<[i := r']> h) x ↔ started_in h x.
Proof.
  intros Hi Hs. unfold started_in. destruct (decide (i = x)) as [->|Hne].
  - rewrite lookup_insert_eq, Hi. split.
    + intros (? & [= <-] & ?). congruence.
    + by intros (? & ? & ?).
  - by rewrite lookup_insert_ne.
Qed.

Lemma runs_of_same p p' infos :
  runs_of p infos → transition p p' → ran p' = ran p →
  (∀ x, started_in (heap p') x ↔ started_in (heap p) x) →
  runs_of p' infos.
Proof.
  intros (Hnd & Hf & Hs) T Hr Hsame. split; [done|]. split.
  - rewrite Hr. eapply Forall2_impl; [exact Hf|].
    intros t x (r & Hx & Ht). simpl.
    destruct (transition_evolves p p' x r T Hx) as (r' & Hx' & E & _).
    exists r'. split; [done|congruence].
  - intros x. rewrite Hs. symmetry. apply Hsame.
Qed.

(** Every transition keeps the correspondence; dequeuing a name adds the
    record of that name, which was not started before. *)
Lemma transition_runs p p' infos :
  pool_inv p → runs_of p infos → transition p p' →
  runs_of p' infos ∨
  ∃ info r t, heap p !! info = Some r ∧ started r = false ∧ task r = Some t ∧
              ran p' = t :: ran p ∧ runs_of p' (info :: infos).
Proof.
  intros I R T. pose proof T as T0.
  destruct T as [_ _ _ Hh Hr
                | name t _ _ Hfresh _ _ Hh _ Hr
                | name i0 r0 _ Hr0 Hh _ _ _ Hr
                | name i0 r0 _ Hr0 _ _ Hh _ _ Hr
                | i _ _ _ _ _ _ Hh Hr
                | i name rest i0 r0 t Hi Hq0 Hn0 Hr0 Ht0 _ Hh _ Hr _
                | i i0 r0 _ Hr0 Hh _ _ _ Hr
                | _ _ _ _ Hh Hr | _ _ _ _ _ Hh Hr].
  - left. apply (runs_of_same p); try done. intros x. by rewrite Hh.
  - left. apply (runs_of_same p); try done. intros x. rewrite Hh.
    by apply started_in_fresh.
  - left. apply (runs_of_same p); try done. intros x. rewrite Hh.
    by apply (started_in_update _ i0 r0).
  - left. apply (runs_of_same p); try done. intros x.
    destruct Hh as [-> | ->]; [done|]. by apply (started_in_update _ i0 r0).
  - left. apply (runs_of_same p); try done. intros x. by rewrite Hh.
  - right. destruct (inv_queue p I name) as (i1 & r1 & t1 & Hn1 & Hr1 & _ & Hs1 & _);
      [rewrite Hq0; by left|].
    simplify_eq. exists i0, r0, t.
    split; [done|]. split; [done|]. split; [done|]. split; [done|].
    destruct R as (Hnd & Hf & Hs).
    assert (Hnotin : i0 ∉ infos).
    { intros Hin. apply Hs in Hin as (r & ? & ?). congruence. }
    split; [by apply NoDup_cons|]. split.
    + rewrite Hr. constructor.
      * exists (set_started r0). rewrite Hh, lookup_insert_eq. done.
      * eapply Forall2_impl; [exact Hf|]. intros t' x (r & Hx & Ht'). simpl.
        destruct (transition_evolves p p' x r T0 Hx) as (r' & Hx' & E & _).
        exists r'. split; [done|congruence].
    + intros x. rewrite elem_of_cons, Hs, Hh.
      unfold started_in. destruct (decide (i0 = x)) as [->|Hne].
      * rewrite lookup_insert_eq. split; [|auto]. intros _. by eexists.
      * rewrite lookup_insert_ne by done. split; [|auto]. intros [?|?]; [congruence|done].
  - left. apply (runs_of_same p); try done. intros x. rewrite Hh.
    by apply (started_in_update _ i0 r0).
  - left. apply (runs_of_same p); try done. intros x. by rewrite Hh.
  - left. apply (runs_of_same p); try done. intros x. by rewrite Hh.
Qed.

Lemma reachable_runs p : reachable p → ∃ infos, runs_of p infos.
Proof.
  induction 1 as [n p H|o p p' R (infos & IH) H].
  - exists []. unfold ThreadPool_new in H.
    destruct (n <=? 0)%Z; [done|]. injection H as <-. simpl.
    split; [constructor|]. split; [constructor|].
    intros x. split; [by intros ?%elem_of_nil|].
    intros (r & Hx & _). simpl in Hx. by apply lookup_empty_Some in Hx.
  - pose proof (reachable_inv p R) as I.
    destruct (transition_runs p p' infos I IH (step_transition o p p' I H))
      as [?|(info & _ & _ & _ & _ & _ & _ & ?)]; eauto.
Qed.

(** ** Consequences for the callers *)

Lemma after_reachable os p :
  reachable p → is_Some (exec os p) → reachable (after os p).
Proof.
  intros R [p' H]. unfold after. rewrite H. simpl. by eapply exec_reachable.
Qed.

Lemma pool_two_queued_reachable : reachable pool_two_queued.
Proof.
  apply after_reachable; [by apply new_pool_reachable|].
  eexists. vm_compute. reflexivity.
Qed.

Lemma pool_finished_reachable : reachable pool_finished.
Proof.
  apply after_reachable; [by apply new_pool_reachable|].
  eexists. vm_compute. reflexivity.
Qed.

Lemma pool_running_reachable : reachable pool_running.
Proof.
  apply after_reachable; [by apply new_pool_reachable|].
  eexists. vm_compute. reflexivity.
Qed.

Lemma pool_stopped_unwaited_reachable : reachable pool_stopped_unwaited.
Proof.
  apply after_reachable; [by apply new_pool_reachable|].
  eexists. vm_compute. reflexivity.
Qed.

Lemma runs_of_started p infos info r t :
  runs_of p infos → heap p !! info = Some r → started r = true → task r = Some t →
  t ∈ ran p.
Proof.
  intros (_ & Hf & Hs) Hr Hst Ht.
  assert (Hin : info ∈ infos) by (apply Hs; by exists r).
  clear Hs. induction Hf as [|t' x l k (r' & Hx & Ht') _ IH]; [by apply elem_of_nil in Hin|].
  apply elem_of_cons in Hin as [->|Hin].
  - simplify_eq. by left.
  - right. by apply IH.
Qed.

Lemma runs_of_ran p infos t :
  runs_of p infos → t ∈ ran p →
  ∃ info r, heap p !! info = Some r ∧ started r = true ∧ task r = Some t.
Proof.
  intros (_ & Hf & Hs) Hin.
  assert (∃ info, info ∈ infos ∧ ∃ r, heap p !! info = Some r ∧ task r = Some t)
    as (info & Hi & r & Hr & Ht).
  { clear Hs. induction Hf as [|t' x l k Hx _ IH]; [by apply elem_of_nil in Hin|].
    apply elem_of_cons in Hin as [->|Hin].
    - exists x. split; [by left|done].
    - destruct (IH Hin) as (info & ? & ?). exists info. split; [by right|done]. }
  apply Hs in Hi as (r' & Hr' & Hst). simplify_eq. by exists info, r'.
Qed.

Lemma runs_of_NoDup p infos :
  runs_of p infos →
  (∀ x y rx ry t, heap p !! x = Some rx → heap p !! y = Some ry →
                  task rx = Some t → task ry = Some t → x = y) →
  NoDup (ran p).
Proof.
  intros (Hnd & Hf & _) Hinj.
  induction Hf as [|t x l k (r & Hx & Ht) Hf IH]; [constructor|].
  apply NoDup_cons in Hnd as [Hx' Hnd]. apply NoDup_cons. split; [|by apply IH].
  intros Hin. apply Hx'. clear IH Hnd Hx'.
  induction Hf as [|t' y l k (ry & Hy & Ht') _ IH]; [by apply elem_of_nil in Hin|].
  apply elem_of_cons in Hin as [<-|Hin].
  - rewrite (Hinj x y r ry t Hx Hy Ht Ht'). by left.
  - right. by apply IH.
Qed.

(** X4: the runs and the started records of a constructed pool correspond
    one to one.  The task of every started record has been run, every run
    is the run of a started record, there are as many runs as started
    records, and when no two records share a task object no task has been
    run twice. *)
Theorem runs_match_started p :
  reachable p →
  (∃ infos, runs_of p infos ∧ length (ran p) = length infos) ∧
  (∀ info r t, heap p !! info = Some r → started r = true → task r = Some t →
     t ∈ ran p) ∧
  (∀ t, t ∈ ran p →
     ∃ info r, heap p !! info = Some r ∧ started r = true ∧ task r = Some t) ∧
  ((∀ x y rx ry t, heap p !! x = Some rx → heap p !! y = Some ry →
                   task rx = Some t → task ry = Some t → x = y) →
   NoDup (ran p)).
Proof.
  intros R. destruct (reachable_runs p R) as (infos & Hr).
  split; [|split; [|split]].
  - exists infos. split; [done|]. destruct Hr as (_ & Hf & _). by eapply Forall2_length.
  - intros info r t. by apply (runs_of_started p infos).
  - intros t. by apply (runs_of_ran p infos).
  - by apply (runs_of_NoDup p infos).
Qed.

Lemma runs_match_started_witness : NoDup (ran pool_finished).
Proof.
  apply (runs_match_started pool_finished pool_finished_reachable).
  intros x y rx ry t Hx Hy _ _.
  assert (E : heap pool_finished = {[0 := mkTaskInfo (Some count_task) true true false]})
    by (vm_compute; reflexivity).
  rewrite E in Hx, Hy.
  apply lookup_singleton_Some in Hx as [<- _]. by apply lookup_singleton_Some in Hy as [<- _].
Defined.

(** X3: a registered record of a constructed pool holds a task and is
    finished only when it is started; on every later schedule after which
    the name is still registered under that record, the record holds the
    same task and no flag that was set has been reset. *)
Theorem record_only_advances p name info r :
  reachable p → tasks_ p !! name = Some info → heap p !! info = Some r →
  is_Some (task r) ∧ (finished r = true → started r = true) ∧
  ∀ os p', exec os p = Some p' → tasks_ p' !! name = Some info →
    ∃ r', heap p' !! info = Some r' ∧ task r' = task r ∧
          (started r = true → started r' = true) ∧
          (finished r = true → finished r' = true) ∧
          (waited r = true → waited r' = true).
Proof.
  intros R Hn Hr. pose proof (reachable_life p R) as L.
  split; [by eapply (li_task p L)|]. split; [by eapply (li_finished p L)|].
  intros os p' H _. by apply (exec_evolves os p p' info r (reachable_inv p R)).
Qed.

Lemma record_only_advances_witness :
  ∃ r', heap (after [OWaitFor "a"; OWorkerDone 0] pool_running) !! 0 = Some r' ∧
        task r' = Some count_task ∧ started r' = true.
Proof.
  assert (Hn : tasks_ pool_running !! "a" = Some 0) by (vm_compute; reflexivity).
  assert (Hr : heap pool_running !! 0 = Some (mkTaskInfo (Some count_task) true false false))
    by (vm_compute; reflexivity).
  destruct (record_only_advances pool_running "a" 0 _ pool_running_reachable Hn Hr)
    as (_ & _ & H).
  destruct (H [OWaitFor "a"; OWorkerDone 0]
              (after [OWaitFor "a"; OWorkerDone 0] pool_running))
    as (r' & H1 & H2 & H3 & _); [vm_compute; reflexivity..|].
  exists r'. split; [exact H1|]. split; [exact H2|by apply H3].
Defined.

Lemma pool_waited_reachable : reachable pool_waited.
Proof.
  apply after_reachable; [by apply new_pool_reachable|].
  eexists. vm_compute. reflexivity.
Qed.

(** C2: [WaitForTask(name)] throws the unknown-name error exactly when
    [name] is not registered, and throws nothing else.  In a constructed
    pool a registered name has a record that holds a task.  While the
    record is not finished, the call suspends its caller and a suspended
    caller cannot resume.  Once the record is finished, the call returns at
    once and a suspended caller resumes and returns: either way the entry
    has been erased from the registry and exactly its task deleted, and a
    further [WaitForTask] on the same name throws the unknown-name error.
    A suspended call returns only for a finished record that is still
    registered. *)
Theorem WaitForTask_spec p name :
  (WaitForTask name p = Throw (UnknownTaskName name) p ↔ tasks_ p !! name = None) ∧
  (∀ e p', WaitForTask name p = Throw e p' →
     e = UnknownTaskName name ∧ p' = p ∧ tasks_ p !! name = None) ∧
  (reachable p → ∀ info, tasks_ p !! name = Some info →
     ∃ r t, heap p !! info = Some r ∧ task r = Some t ∧
       (finished r = false →
          (∃ p1, WaitForTask name p = Pending p1 ∧
                 waiting p1 = waiting p ++ [(name, info)] ∧
                 tasks_ p1 = tasks_ p ∧ released p1 = released p ∧
                 queue_ p1 = queue_ p ∧
                 WaitForTask_wake (length (waiting p)) p1 = NotEnabled) ∧
          (∀ i, waiting p !! i = Some (name, info) →
                WaitForTask_wake i p = NotEnabled)) ∧
       (finished r = true →
          (∃ p', WaitForTask name p = Ok p' ∧
                 tasks_ p' = delete name (tasks_ p) ∧
                 released p' = t :: released p ∧
                 WaitForTask name p' = Throw (UnknownTaskName name) p') ∧
          (∀ i, waiting p !! i = Some (name, info) →
             ∃ p', WaitForTask_wake i p = Ok p' ∧
                   tasks_ p' = delete name (tasks_ p) ∧
                   released p' = t :: released p ∧
                   waiting p' = delete i (waiting p) ∧
                   WaitForTask name p' = Throw (UnknownTaskName name) p'))) ∧
  (∀ i info p', waiting p !! i = Some (name, info) → WaitForTask_wake i p = Ok p' →
     tasks_ p !! name = Some info ∧
     ∃ r, heap p !! info = Some r ∧ finished r = true).
Proof.
  split; [|split; [|split]].
  - split; [by intros (_ & _ & ?)%WaitForTask_Throw|apply WaitForTask_unknown].
  - intros e p'. apply WaitForTask_Throw.
  - intros R info Hn. pose proof (reachable_inv p R) as I.
    pose proof (reachable_life p R) as L.
    destruct (inv_reg p I name info Hn) as [r Hr].
    destruct (li_task p L info r Hr) as [t Ht].
    exists r, t. split; [done|]. split; [done|]. split.
    + intros Hf. split.
      * unfold WaitForTask. rewrite Hn, Hr, Hf.
        eexists. split; [done|]. simpl. repeat split.
        unfold WaitForTask_wake. simpl.
        rewrite lookup_app_r, Nat.sub_diag by done. simpl.
        unfold WaitForTask_reclaim. simpl. rewrite lookup_insert_eq. simpl.
        by rewrite Hf.
      * intros i Hi. unfold WaitForTask_wake, WaitForTask_reclaim.
        by rewrite Hi, Hr, Hf.
    + intros Hf. split.
      * rewrite (WaitForTask_finished name info r p) by done.
        eexists. split; [done|]. rewrite Ht. simpl.
        split; [done|]. split; [done|].
        apply WaitForTask_unknown. simpl. apply lookup_delete_eq.
      * intros i Hi. unfold WaitForTask_wake, WaitForTask_reclaim.
        rewrite Hi, Hr, Hf, decide_True by done. rewrite Ht.
        eexists. split; [done|]. simpl.
        split; [done|]. split; [done|]. split; [done|].
        apply WaitForTask_unknown. simpl. apply lookup_delete_eq.
  - intros i info p' Hi. unfold WaitForTask_wake. rewrite Hi.
    destruct (WaitForTask_reclaim name info p) as [p1| | | | |] eqn:E; try done.
    intros _. apply WaitForTask_reclaim_Ok in E as (r & Hr & Hf & Hn & _).
    split; [done|]. by exists r.
Qed.

Lemma WaitForTask_spec_witness :
  (∃ p1, WaitForTask "a" pool_queued = Pending p1 ∧
         waiting p1 = waiting pool_queued ++ [("a", 0)] ∧
         tasks_ p1 = tasks_ pool_queued ∧ released p1 = released pool_queued ∧
         queue_ p1 = queue_ pool_queued ∧
         WaitForTask_wake (length (waiting pool_queued)) p1 = NotEnabled) ∧
  (∃ p', WaitForTask_wake 0 pool_waited = Ok p' ∧
         tasks_ p' = delete "a" (tasks_ pool_waited) ∧
         released p' = count_task :: released pool_waited ∧
         waiting p' = delete 0 (waiting pool_waited) ∧
         WaitForTask "a" p' = Throw (UnknownTaskName "a") p').
Proof.
  split.
  - destruct (WaitForTask_spec pool_queued "a") as (_ & _ & H & _).
    destruct (H pool_queued_reachable 0) as (r & t & Hr & _ & Hsus & _);
      [vm_compute; reflexivity|].
    assert (E : heap pool_queued !! 0 =
                Some (mkTaskInfo (Some count_task) false false false))
      by (vm_compute; reflexivity).
    rewrite E in Hr. injection Hr as <-. by apply Hsus.
  - destruct (WaitForTask_spec pool_waited "a") as (_ & _ & H & _).
    destruct (H pool_waited_reachable 0) as (r & t & Hr & Ht & _ & Hres);
      [vm_compute; reflexivity|].
    assert (E : heap pool_waited !! 0 =
                Some (mkTaskInfo (Some count_task) true true true))
      by (vm_compute; reflexivity).
    rewrite E in Hr. injection Hr as <-. simpl in Ht. injection Ht as <-.
    apply Hres; vm_compute; reflexivity.
Defined.

(** X5: when [WaitForTask] returns, at once or after a suspension, the task
    of the erased record has been run and its run has ended: the record is
    started and finished and no worker holds it, so the task is not deleted
    under a worker.  The name is free again: on a pool that is not stopping
    a new task can be submitted under it. *)
Theorem WaitForTask_returns_after_run p name p' :
  reachable p →
  WaitForTask name p = Ok p' ∨
  (∃ i info, waiting p !! i = Some (name, info) ∧ WaitForTask_wake i p = Ok p') →
  (∃ info r t,
     tasks_ p !! name = Some info ∧ heap p !! info = Some r ∧
     started r = true ∧ finished r = true ∧ task r = Some t ∧ t ∈ ran p ∧
     (∀ j, threads_ p !! j ≠ Some (InRun info)) ∧
     released p' = t :: released p) ∧
  tasks_ p' !! name = None ∧
  (stopping_ p = false →
   ∀ tk, ∃ p'', SubmitTask name (Some tk) p' = Ok p'' ∧
               tasks_ p'' !! name = Some (next_info p') ∧
               queue_ p'' = queue_ p' ++ [name]).
Proof.
  intros R H. pose proof (reachable_inv p R) as I. pose proof (reachable_life p R) as L.
  assert (∃ info r, tasks_ p !! name = Some info ∧ heap p !! info = Some r ∧
                    finished r = true ∧ tasks_ p' = delete name (tasks_ p) ∧
                    released p' = released (delete_task (task r) p) ∧
                    stopping_ p' = stopping_ p)
    as (info & r & Hn & Hr & Hf & Ht & Hrel & Hs).
  { destruct H as [H|(i & info & Hi & H)].
    - unfold WaitForTask in H.
      destruct (tasks_ p !! name) as [info|] eqn:Hn; [|done].
      destruct (heap p !! info) as [r|] eqn:Hr; [|done].
      destruct (finished r) eqn:Hf; [|done].
      apply WaitForTask_reclaim_Ok in H as (r1 & Hr1 & _ & _ & ->).
      simpl in Hr1. rewrite lookup_insert_eq in Hr1. injection Hr1 as <-.
      exists info, r. simpl. rewrite tasks_delete_task. by destruct (task r).
    - unfold WaitForTask_wake in H. rewrite Hi in H.
      destruct (WaitForTask_reclaim name info p) as [p1| | | | |] eqn:E; try done.
      injection H as <-. apply WaitForTask_reclaim_Ok in E as (r & Hr & Hf & Hn & ->).
      exists info, r. simpl. rewrite tasks_delete_task. by destruct (task r). }
  destruct (li_task p L info r Hr) as [t Hk].
  pose proof (li_finished p L info r Hr Hf) as Hst.
  destruct (reachable_runs p R) as (infos & Hruns).
  split; [|split].
  - exists info, r, t. repeat split; try done.
    + by apply (runs_of_started p infos info r t).
    + intros j Hj. destruct (li_held p L j info Hj) as (? & ? & _ & ? & ?). congruence.
    + by rewrite Hrel, Hk.
  - rewrite Ht. apply lookup_delete_eq.
  - intros Hs' tk. unfold SubmitTask. rewrite Hs, Hs', Ht, lookup_delete_eq.
    eexists. split; [done|]. simpl. by rewrite lookup_insert_eq.
Qed.

Lemma WaitForTask_returns_after_run_witness :
  ∃ info r t,
    tasks_ pool_finished !! "a" = Some info ∧ heap pool_finished !! info = Some r ∧
    started r = true ∧ finished r = true ∧ task r = Some t ∧ t ∈ ran pool_finished ∧
    (∀ j, threads_ pool_finished !! j ≠ Some (InRun info)) ∧
    released (after [OWaitFor "a"] pool_finished) = t :: released pool_finished.
Proof.
  apply (WaitForTask_returns_after_run pool_finished "a" _ pool_finished_reachable).
  left. vm_compute. reflexivity.
Defined.

(** X6: a worker inside [Run] holds a record that is still registered,
    started, not finished and not queued; its task is counted as run; no
    other worker holds the same record, and no waiter can erase the record
    while the run lasts. *)
Theorem running_record_is_pinned p i info :
  reachable p → threads_ p !! i = Some (InRun info) →
  ∃ name r t,
    tasks_ p !! name = Some info ∧ heap p !! info = Some r ∧ task r = Some t ∧
    started r = true ∧ finished r = false ∧ (name ∉ queue_ p) ∧ t ∈ ran p ∧
    (∀ j, threads_ p !! j = Some (InRun info) → j = i) ∧
    WaitForTask_reclaim name info p = NotEnabled ∧
    ∃ p', WaitForTask name p = Pending p'.
Proof.
  intros R Hi. pose proof (reachable_inv p R) as I. pose proof (reachable_life p R) as L.
  destruct (li_held p L i info Hi) as (name & r & Hn & Hr & Hf).
  destruct (inv_worker p I i info Hi) as (r1 & Hr1 & Hst & [t Ht]). simplify_eq.
  destruct (reachable_runs p R) as (infos & Hruns).
  exists name, r, t. repeat split; try done.
  - intros Hin. destruct (inv_queue p I name Hin) as (?&?&?&?&?&?&?&?). congruence.
  - by apply (runs_of_started p infos info r t).
  - intros j Hj. by apply (li_unique p L j i info).
  - unfold WaitForTask_reclaim. by rewrite Hr, Hf.
  - unfold WaitForTask. rewrite Hn, Hr, Hf. by eexists.
Qed.

Lemma running_record_is_pinned_witness :
  ∃ name r t,
    tasks_ pool_running !! name = Some 0 ∧ heap pool_running !! 0 = Some r ∧
    task r = Some t ∧ started r = true ∧ finished r = false ∧
    (name ∉ queue_ pool_running) ∧ t ∈ ran pool_running ∧
    (∀ j, threads_ pool_running !! j = Some (InRun 0) → j = 0) ∧
    WaitForTask_reclaim name 0 pool_running = NotEnabled ∧
    ∃ p', WaitForTask name pool_running = Pending p'.
Proof.
  apply (running_record_is_pinned pool_running 0 0 pool_running_reachable).
  vm_compute. reflexivity.
Defined.

Lemma exited_queue_empty p :
  pool_inv p → (∃ i t, threads_ p !! i = Some t ∧ exited t) → queue_ p = [].
Proof.
  intros I (i & t & Hi & Ht). apply (inv_exit p I i). by destruct Ht as [-> | ->]; auto.
Qed.

Lemma Stop_join_done p p' :
  pool_of (Stop_join p) = Some p' → Forall exited (threads_ p) ∧ ran p' = ran p.
Proof.
  unfold Stop_join. destruct (joiner p) as [who|]; [|done].
  destruct (join_all (threads_ p)) as [ts|] eqn:E; [|done].
  apply join_all_Some in E as [Hall ->]. split; [done|]. destruct who.
  - by injection H as <-.
  - by apply dtor_body_transition in H as (_ & _ & _ & _ & _ & _ & ? & _).
Qed.

(** X7: [Stop] drains the queue.  On every schedule, once some worker has
    left its loop, and in particular when the join loop of [Stop] has
    completed, every task that was queued in an earlier state has been
    run. *)
Theorem Stop_runs_queued_tasks p name t os p1 :
  reachable p → queued_task p name t → exec os p = Some p1 →
  ((∃ i th, threads_ p1 !! i = Some th ∧ exited th) → t ∈ ran p1) ∧
  (∀ p', Stop_join p1 = Ok p' → t ∈ ran p').
Proof.
  intros R (Hin & info & r & Hn & Hr & Ht) H.
  pose proof (reachable_inv p R) as I. pose proof (exec_inv _ _ _ I H) as I1.
  assert (Hdrain : (∃ i th, threads_ p1 !! i = Some th ∧ exited th) → t ∈ ran p1).
  { intros Hex. pose proof (exited_queue_empty p1 I1 Hex) as Hq.
    destruct (exec_fate os p p1 name info r t I H Hr Ht) as [[Hin' _]|[? _]];
      [by left| |done].
    rewrite Hq in Hin'. by apply elem_of_nil in Hin'. }
  split; [done|]. intros p' Hj.
  destruct (Stop_join_done p1 p') as [Hall ->]; [by rewrite Hj|].
  apply Hdrain. pose proof (inv_threads p1 I1) as Hne.
  destruct (threads_ p1) as [|th ths] eqn:E; [done|].
  apply Forall_cons in Hall as [Hth _]. by exists 0, th.
Qed.

Lemma Stop_runs_queued_tasks_witness :
  count_task ∈ ran (after [OStop; OWorkerWake 0; OWorkerDone 0; OWorkerWake 0] pool_queued).
Proof.
  destruct (Stop_runs_queued_tasks pool_queued "a" count_task
              [OStop; OWorkerWake 0; OWorkerDone 0; OWorkerWake 0]
              (after [OStop; OWorkerWake 0; OWorkerDone 0; OWorkerWake 0] pool_queued))
    as [H _].
  - apply pool_queued_reachable.
  - apply pool_queued_task.
  - vm_compute. reflexivity.
  - apply H. exists 0, Exited. split; [vm_compute; reflexivity|by left].
Defined.

(** X8: once every worker has left its loop, every record still registered
    is finished: [WaitForTask] on a registered name returns at once, erasing
    the entry and deleting its task, and never suspends its caller. *)
Theorem WaitForTask_after_workers_exited p name info :
  reachable p → Forall exited (threads_ p) → tasks_ p !! name = Some info →
  ∃ r t p', heap p !! info = Some r ∧ finished r = true ∧ task r = Some t ∧
            t ∈ ran p ∧
            WaitForTask name p = Ok p' ∧ tasks_ p' = delete name (tasks_ p) ∧
            released p' = t :: released p.
Proof.
  intros R Hall Hn. pose proof (reachable_inv p R) as I.
  pose proof (reachable_life p R) as L.
  destruct (inv_reg p I name info Hn) as [r Hr].
  destruct (li_task p L info r Hr) as [t Ht].
  assert (Hf : finished r = true).
  { destruct (finished r) eqn:Hf; [done|]. exfalso.
    destruct (li_pending p L name info r Hn Hr Hf) as [Hin|[j Hj]].
    - pose proof (inv_threads p I) as Hne.
      destruct (threads_ p) as [|th ths] eqn:E; [done|].
      apply Forall_cons in Hall as [Hth _].
      rewrite (exited_queue_empty p I) in Hin; [by apply elem_of_nil in Hin|].
      exists 0, th. by rewrite E.
    - by apply Forall_exited_InRun in Hj. }
  destruct (reachable_runs p R) as (infos & Hruns).
  exists r, t. eexists. split; [done|]. split; [done|]. split; [done|].
  split.
  { apply (runs_of_started p infos info r t); try done.
    by apply (li_finished p L info r). }
  split; [by apply WaitForTask_finished|].
  rewrite tasks_delete_task. simpl. split; [done|]. by rewrite Ht.
Qed.

Lemma pool_stopped_unwaited_exited : Forall exited (threads_ pool_stopped_unwaited).
Proof.
  assert (E : threads_ pool_stopped_unwaited = [Joined]) by (vm_compute; reflexivity).
  rewrite E. constructor; [by right|constructor].
Qed.

Lemma WaitForTask_after_workers_exited_witness :
  ∃ r t p', heap pool_stopped_unwaited !! 0 = Some r ∧ finished r = true ∧
            task r = Some t ∧ t ∈ ran pool_stopped_unwaited ∧
            WaitForTask "a" pool_stopped_unwaited = Ok p' ∧
            tasks_ p' = delete "a" (tasks_ pool_stopped_unwaited) ∧
            released p' = t :: released pool_stopped_unwaited.
Proof.
  apply (WaitForTask_after_workers_exited pool_stopped_unwaited "a" 0).
  - apply pool_stopped_unwaited_reachable.
  - apply pool_stopped_unwaited_exited.
  - vm_compute. reflexivity.
Defined.

(** ** First-in first-out dispatch *)

Lemma ahead_elem a b q : ahead a b q → a ∈ q ∧ b ∈ q.
Proof.
  intros (l1 & l2 & l3 & ->). split.
  - apply elem_of_app. right. by left.
  - apply elem_of_app. right. right. apply elem_of_app. right. by left.
Qed.

Lemma transition_fifo a b ia ib p p' :
  pool_inv p → transition p p' → fifo_state a b ia ib p → fifo_state a b ia ib p'.
Proof.
  intros I T [(Hab & Ha & Hb)|(r & Hr & Hs)].
  2: { right. destruct (transition_evolves p p' ia r T Hr) as (r' & Hr' & _ & E & _).
       exists r'. auto. }
  destruct (ahead_elem a b _ Hab) as [Hina Hinb].
  destruct T as [Hq Ht _ _ _
                | name t _ Hn _ Hq Ht _ _ _
                | name i0 r0 _ _ _ Hq Ht _ _
                | name i0 r0 Hn0 Hr0 Hf0 Ht _ Hq _ _
                | i _ _ Hq0 _ Hq Ht _ _
                | i name rest i0 r0 t _ Hq0 Hn0 Hr0 _ Hq Hh _ _ Ht
                | i i0 r0 _ _ _ _ Hq Ht _
                | _ _ Hq Ht _ _
                | Hall _ _ _ Hq _ _].
  - left. by rewrite Hq, Ht.
  - left. rewrite Hq, Ht. destruct Hab as (l1 & l2 & l3 & ->).
    split; [exists l1, l2, (l3 ++ [name]); rewrite <- app_assoc; simpl;
            by rewrite <- app_assoc|].
    rewrite !lookup_insert_ne by congruence. done.
  - left. by rewrite Hq, Ht.
  - left. rewrite Hq, Ht. split; [done|].
    assert (∀ n, n ∈ queue_ p → n ≠ name) as Hne.
    { intros n Hin ->. destruct (inv_queue p I name Hin) as (?&?&?&?&?&?&?&?). congruence. }
    assert (name ≠ a) by (intros ->; by apply (Hne a)).
    assert (name ≠ b) by (intros ->; by apply (Hne b)).
    by rewrite !lookup_delete_ne.
  - rewrite Hq0 in Hina. by apply elem_of_nil in Hina.
  - destruct Hab as (l1 & l2 & l3 & E). rewrite Hq0 in E.
    destruct l1 as [|n l1]; simpl in E; injection E as -> ->.
    + right. simplify_eq. exists (set_started r0). by rewrite Hh, lookup_insert_eq.
    + left. rewrite Hq, Ht. split; [by exists l1, l2, l3|done].
  - left. by rewrite Hq, Ht.
  - left. by rewrite Hq, Ht.
  - exfalso. pose proof (inv_threads p I) as Hne.
    destruct (threads_ p) as [|th ths] eqn:E; [done|].
    apply Forall_cons in Hall as [Hth _].
    rewrite (exited_queue_empty p I) in Hina; [by apply elem_of_nil in Hina|].
    exists 0, th. by rewrite E.
Qed.

(** X2: dispatch is first-in first-out.  When [a] stands in front of [b]
    in the queue, then on every schedule the record of [b] is started only
    if the record of [a] is started as well. *)
Theorem dispatch_is_fifo p a b ia ib os p' :
  reachable p → ahead a b (queue_ p) →
  tasks_ p !! a = Some ia → tasks_ p !! b = Some ib →
  exec os p = Some p' →
  started_in (heap p') ib → started_in (heap p') ia.
Proof.
  intros R Hab Ha Hb H Hsb. pose proof (reachable_inv p R) as I.
  assert (F : fifo_state a b ia ib p') .
  { assert (F0 : fifo_state a b ia ib p) by (by left).
    clear Hab Ha Hb R. revert p I F0 H.
    induction os as [|o os IH]; intros p I F0; simpl; [by intros [= <-]|].
    destruct (pool_of (run_op o p)) as [p1|] eqn:E; [|done].
    apply IH; [by eapply step_inv|].
    eapply transition_fifo; [exact I|by eapply step_transition|exact F0]. }
  destruct F as [(Hab' & _ & Hb')|?]; [|done]. exfalso.
  destruct (ahead_elem a b _ Hab') as [_ Hinb].
  destruct (inv_queue p' (exec_inv _ _ _ I H) b Hinb) as (x & r & _ & Hx & Hr & _ & Hs & _).
  destruct Hsb as (r' & Hr' & Hs'). congruence.
Qed.

Lemma dispatch_is_fifo_witness :
  started_in (heap (after [OWorkerWake 1; OWorkerWake 0] pool_two_queued)) 0.
Proof.
  apply (dispatch_is_fifo pool_two_queued "a" "b" 0 1 [OWorkerWake 1; OWorkerWake 0]).
  - apply pool_two_queued_reachable.
  - exists [], [], []. vm_compute. reflexivity.
  - vm_compute. reflexivity.
  - vm_compute. reflexivity.
  - vm_compute. reflexivity.
  - exists (mkTaskInfo (Some other_task) true false false). split; vm_compute; reflexivity.
Defined.

(** ** Submission *)

(** X1: on a pool that is not stopping, submitting a task under a name
    that is not registered returns normally; a new record holding the task,
    with no flag set, is registered under the name, and the name is
    appended at the back of the queue.  No other registration, no existing
    record and no thread is touched, nothing is run or deleted.  A second
    submission under the name is then rejected as a duplicate, and a
    [WaitForTask] on the name suspends its caller. *)
Theorem SubmitTask_registers p name tk :
  reachable p → stopping_ p = false → tasks_ p !! name = None →
  ∃ p' info,
    SubmitTask name (Some tk) p = Ok p' ∧
    queue_ p' = queue_ p ++ [name] ∧
    tasks_ p' !! name = Some info ∧
    heap p' !! info = Some (mkTaskInfo (Some tk) false false false) ∧
    heap p !! info = None ∧
    (∀ n, n ≠ name → tasks_ p' !! n = tasks_ p !! n) ∧
    (∀ x r, heap p !! x = Some r → heap p' !! x = Some r) ∧
    threads_ p' = threads_ p ∧ ran p' = ran p ∧ released p' = released p ∧
    (∀ tk', ∃ p'', SubmitTask name (Some tk') p' = Throw (DuplicateTaskName name) p'') ∧
    (∃ p'', WaitForTask name p' = Pending p'').
Proof.
  intros R Hs Hn. pose proof (reachable_inv p R) as I.
  assert (Hfresh : heap p !! next_info p = None).
  { destruct (heap p !! next_info p) eqn:E; [|done].
    pose proof (inv_heap p I _ (mk_is_Some _ _ E)). lia. }
  eexists _, (next_info p). split; [unfold SubmitTask; by rewrite Hs, Hn|]. simpl.
  split; [done|]. split; [by rewrite lookup_insert_eq|].
  split; [by rewrite lookup_insert_eq|]. split; [done|].
  split; [intros n Hne; by rewrite lookup_insert_ne|].
  split; [intros x r Hx; rewrite lookup_insert_ne; [done|congruence]|].
  split; [done|]. split; [done|]. split; [done|]. split.
  - intros tk'. unfold SubmitTask. simpl. rewrite Hs, lookup_insert_eq. by eexists.
  - unfold WaitForTask. simpl. rewrite !lookup_insert_eq. simpl. by eexists.
Qed.

Lemma SubmitTask_registers_witness :
  ∃ p' info,
    SubmitTask "b" (Some other_task) pool_queued = Ok p' ∧
    queue_ p' = queue_ pool_queued ++ ["b"] ∧
    tasks_ p' !! "b" = Some info ∧
    heap p' !! info = Some (mkTaskInfo (Some other_task) false false false) ∧
    heap pool_queued !! info = None ∧
    (∀ n, n ≠ "b" → tasks_ p' !! n = tasks_ pool_queued !! n) ∧
    (∀ x r, heap pool_queued !! x = Some r → heap p' !! x = Some r) ∧
    threads_ p' = threads_ pool_queued ∧ ran p' = ran pool_queued ∧
    released p' = released pool_queued ∧
    (∀ tk', ∃ p'', SubmitTask "b" (Some tk') p' = Throw (DuplicateTaskName "b") p'') ∧
    (∃ p'', WaitForTask "b" p' = Pending p'').
Proof.
  apply (SubmitTask_registers pool_queued "b" other_task pool_queued_reachable);
    vm_compute; reflexivity.
Defined.

(** ** The worker threads *)

Lemma transition_threads p p' :
  transition p p' → length (threads_ p') = length (threads_ p).
Proof.
  intros T.
  destruct T as [_ _ H _ _
                | name t _ _ _ _ _ _ H _
                | name i0 r0 _ _ _ _ _ H _
                | name i0 r0 _ _ _ _ _ _ H _
                | i _ _ _ H _ _ _ _
                | i name rest i0 r0 t _ _ _ _ _ _ _ H _ _
                | i i0 r0 _ _ _ H _ _ _
                | _ H _ _ _ _
                | _ H _ _ _ _ _]; rewrite H;
    by rewrite ?length_insert, ?length_replicate.
Qed.

(** X10: the number of worker threads is fixed by the constructor: on every
    schedule from a newly constructed pool there are exactly [num_threads]
    threads, and as long as the stopping flag is not set every one of them
    is in its loop, at the wait or inside a run. *)
Theorem workers_fixed_and_live n p0 os p :
  ThreadPool_new n = inr p0 → exec os p0 = Some p →
  Z.of_nat (length (threads_ p)) = n ∧
  (stopping_ p = false → Forall live (threads_ p)).
Proof.
  intros Hnew H. pose proof (reach_new n p0 Hnew) as R0.
  pose proof (reachable_inv p (exec_reachable os p0 p R0 H)) as I.
  split.
  - assert (Z.of_nat (length (threads_ p0)) = n) as <-.
    { unfold ThreadPool_new in Hnew. destruct (Z.leb_spec n 0); [done|].
      injection Hnew as <-. simpl. rewrite spawn_app. simpl.
      rewrite length_replicate. lia. }
    f_equal. pose proof (reachable_inv p0 R0) as I0. clear Hnew R0 I.
    revert p0 I0 H. induction os as [|o os IH]; intros p0 I0; simpl; [by intros [= <-]|].
    destruct (pool_of (run_op o p0)) as [p1|] eqn:E; [|done]. intros H.
    rewrite (IH p1 (step_inv _ _ _ I0 E) H).
    by apply transition_threads, (step_transition o).
  - intros Hs. apply Forall_lookup. intros i t Hi.
    destruct t as [|info| |]; [by left|right; by exists info|..];
      destruct (inv_exit p I i) as [? _]; auto; congruence.
Qed.

Lemma workers_fixed_and_live_witness :
  Z.of_nat (length (threads_
     (after [OSubmit "a" (Some count_task); OWorkerWake 2] (new_pool 3)))) = 3%Z ∧
  (stopping_ (after [OSubmit "a" (Some count_task); OWorkerWake 2] (new_pool 3)) = false →
   Forall live (threads_
     (after [OSubmit "a" (Some count_task); OWorkerWake 2] (new_pool 3)))).
Proof.
  apply (workers_fixed_and_live 3 (new_pool 3)
           [OSubmit "a" (Some count_task); OWorkerWake 2]);
    vm_compute; reflexivity.
Defined.

(** ** The destructor after [Stop] *)

Lemma delete_all_length kvs p p1 :
  (∀ x r, heap p !! x = Some r → is_Some (task r)) →
  delete_all kvs p = Some p1 →
  length (released p1) = length kvs + length (released p).
Proof.
  revert p; induction kvs as [|[k info] kvs IH]; intros p Ht; simpl.
  - by intros [= <-].
  - destruct (heap p !! info) as [r|] eqn:Hr; [|done].
    destruct (Ht info r Hr) as [t Hk]. rewrite Hk. simpl. intros H.
    rewrite (IH (with_released (t :: released p) p) Ht H). simpl. lia.
Qed.

(** X9: on a pool whose [Stop] has returned (every thread joined) the
    destructor returns at once: it deletes one task for each entry of the
    registry, namely the tasks of the registered records, and leaves the
    registry empty.  On a stopping pool in which some thread is not joined,
    the destructor skips [Stop] and ends in [std::terminate]. *)
Theorem destructor_after_Stop p :
  reachable p → destroyed p = false → stopping_ p = true →
  (Forall (eq Joined) (threads_ p) →
   ∃ p' l, run_op ODelete p = Ok p' ∧ destroyed p' = true ∧ tasks_ p' = ∅ ∧
           released p' = l ++ released p ∧ length l = size (tasks_ p) ∧
           ∀ t, t ∈ l ↔ ∃ name info r, tasks_ p !! name = Some info ∧
                                      heap p !! info = Some r ∧ task r = Some t) ∧
  ((∃ i t, threads_ p !! i = Some t ∧ t ≠ Joined) → run_op ODelete p = Terminated).
Proof.
  intros R Hd Hs. pose proof (reachable_inv p R) as I.
  pose proof (reachable_life p R) as L.
  destruct (delete_all_is_Some (map_to_list (tasks_ p)) p) as [p1 Hp1].
  { intros k info Hin%elem_of_map_to_list. by apply (inv_reg p I k). }
  pose proof (delete_all_length _ _ _ (li_task p L) Hp1) as Hlen.
  destruct (delete_all_Some _ _ _ Hp1) as (l & E & Hl).
  unfold run_op, ThreadPool_delete, dtor_body. rewrite Hd, Hs, Hp1. simpl.
  rewrite E. simpl. split.
  - intros Hall.
    replace (existsb joinable (threads_ p)) with false.
    2: { symmetry. clear -Hall. induction Hall as [|t ts <- _ IH]; simpl; auto. }
    eexists _, l. split; [done|]. simpl. repeat split; try done.
    + rewrite E in Hlen. simpl in Hlen. rewrite length_app, length_map_to_list in Hlen. lia.
    + intros Ht. apply Hl in Ht as (k & info & r & Hin%elem_of_map_to_list & ? & ?).
      by exists k, info, r.
    + intros (k & info & r & Hin & ? & ?). apply Hl. exists k, info, r.
      by rewrite elem_of_map_to_list.
  - intros (i & t & Hi & Ht).
    replace (existsb joinable (threads_ p)) with true; [done|].
    symmetry. apply existsb_exists. exists t. split.
    + apply list_elem_of_In. by eapply list_elem_of_lookup_2.
    + by destruct t.
Qed.

Lemma destructor_after_Stop_witness :
  ∃ p' l, run_op ODelete pool_stopped_unwaited = Ok p' ∧ destroyed p' = true ∧
          tasks_ p' = ∅ ∧ released p' = l ++ released pool_stopped_unwaited ∧
          length l = size (tasks_ pool_stopped_unwaited) ∧
          ∀ t, t ∈ l ↔ ∃ name info r, tasks_ pool_stopped_unwaited !! name = Some info ∧
                                     heap pool_stopped_unwaited !! info = Some r ∧
                                     task r = Some t.
Proof.
  assert (Hd : destroyed pool_stopped_unwaited = false) by (vm_compute; reflexivity).
  assert (Hs : stopping_ pool_stopped_unwaited = true) by (vm_compute; reflexivity).
  destruct (destructor_after_Stop pool_stopped_unwaited
              pool_stopped_unwaited_reachable Hd Hs) as [H _].
  apply H.
  assert (E : threads_ pool_stopped_unwaited = [Joined]) by (vm_compute; reflexivity).
  rewrite E. by repeat constructor.
Defined.

(** ** Stopping an idle pool *)

(** The stopping flag is never reset. *)
Lemma step_stopping o p p' : step o p p' → stopping_ p = true → stopping_ p' = true.
Proof.
  unfold step, run_op. destruct (destroyed p); [done|]. intros H Hs. revert H.
  destruct o as [name t|name|i| | | |i|i].
  - unfold SubmitTask. rewrite Hs. destruct t; by intros [= <-].
  - unfold WaitForTask.
    destruct (tasks_ p !! name) as [info|]; [|by intros [= <-]].
    destruct (heap p !! info) as [r|]; [|done].
    destruct (finished r).
    + intros H. by apply WaitForTask_reclaim_transition in H
        as (_ & _ & _ & _ & _ & _ & _ & _ & _ & -> & _).
    + by intros [= <-].
  - unfold WaitForTask_wake.
    destruct (waiting p !! i) as [[name info]|]; [|done].
    destruct (WaitForTask_reclaim name info p) as [p1|e p1|p1| | |] eqn:E; try done.
    + simpl. intros [= <-]. simpl.
      destruct (WaitForTask_reclaim_transition name info p p1)
        as (_ & _ & _ & _ & _ & _ & _ & _ & _ & -> & _); [by rewrite E|done].
    + exfalso. unfold WaitForTask_reclaim in E. repeat case_match; done.
    + exfalso. unfold WaitForTask_reclaim in E. repeat case_match; done.
  - unfold Stop, Stop_enter. rewrite Hs. by intros [= <-].
  - unfold Stop_join. destruct (joiner p) as [who|]; [|done].
    destruct (join_all (threads_ p)) as [ts|]; [|done].
    destruct who; [by intros [= <-]|].
    intros H. by apply dtor_body_transition in H as (_ & _ & _ & _ & _ & _ & _ & ->).
  - unfold ThreadPool_delete. rewrite Hs. simpl.
    intros H. by apply dtor_body_transition in H as (_ & _ & _ & _ & _ & _ & _ & ->).
  - unfold WorkerLoop_wake. repeat case_match; try done; by intros [= <-].
  - unfold WorkerLoop_done. repeat case_match; try done; by intros [= <-].
Qed.

Lemma exec_stopping os p p' :
  exec os p = Some p' → stopping_ p = true → stopping_ p' = true.
Proof.
  revert p; induction os as [|o os IH]; intros p; simpl; [by intros [= <-]|].
  destruct (pool_of (run_op o p)) as [p1|] eqn:E; [|done]. intros H Hs.
  apply (IH p1 H). by eapply step_stopping.
Qed.

Lemma forallb_resting_lookup ts i info :
  forallb resting ts = true → ts !! i ≠ Some (InRun info).
Proof.
  revert i; induction ts as [|t ts IH]; intros [|i]; simpl; try done.
  - intros [Ht _]%andb_true_iff [= ->]. done.
  - intros [_ Hts]%andb_true_iff. by apply IH.
Qed.

Lemma forallb_resting_insert ts i t :
  forallb resting ts = true → resting t = true →
  forallb resting (<[i := t]> ts) = true.
Proof.
  revert i; induction ts as [|t0 ts IH]; intros [|i]; simpl; try done.
  - intros [_ Hts]%andb_true_iff ->. done.
  - intros [Ht0 Hts]%andb_true_iff Ht. rewrite Ht0. simpl. by apply IH.
Qed.

Lemma forallb_resting_replicate n : forallb resting (replicate n Joined) = true.
Proof. induction n; simpl; auto. Qed.

(** A stopping pool that is idle stays idle: nothing can be queued and no
    run can start. *)
Lemma transition_idle p p' :
  stopping_ p = true → idle p → transition p p' → idle p'.
Proof.
  intros Hs [Hq Hr] T.
  destruct T as [Hq' _ Hth _ _
                | name t Hs' _ _ _ _ _ _ _
                | name i0 r0 _ _ _ Hq' _ Hth _
                | name i0 r0 _ _ _ _ _ Hq' Hth _
                | i _ _ _ Hth Hq' _ _ _
                | i name rest i0 r0 t _ Hq0 _ _ _ _ _ _ _ _
                | i i0 r0 Hi _ _ _ _ _ _
                | _ Hth Hq' _ _ _
                | _ Hth _ _ Hq' _ _]; try congruence.
  - split; congruence.
  - split; congruence.
  - split; congruence.
  - split; [congruence|]. rewrite Hth. by apply forallb_resting_insert.
  - by apply forallb_resting_lookup in Hi.
  - split; [congruence|]. rewrite Hth. apply forallb_resting_replicate.
  - split; [congruence|]. rewrite Hth. apply forallb_resting_replicate.
Qed.

Lemma exec_idle os p p' :
  pool_inv p → stopping_ p = true → idle p → exec os p = Some p' → idle p'.
Proof.
  revert p; induction os as [|o os IH]; intros p I Hs Hi; simpl; [by intros [= <-]|].
  destruct (pool_of (run_op o p)) as [p1|] eqn:E; [|done].
  apply IH; [by eapply step_inv|by eapply step_stopping|].
  eapply transition_idle; [exact Hs|exact Hi|by eapply step_transition].
Qed.

(** In an idle stopping pool the workers at the wait leave their loop one
    after the other; no run is involved. *)
Lemma idle_workers_exit n p :
  threads_weight (threads_ p) < n →
  pool_inv p → stopping_ p = true → destroyed p = false → idle p →
  ∃ os p', forallb is_worker_wake os = true ∧ exec os p = Some p' ∧
           Forall exited (threads_ p') ∧ joiner p' = joiner p ∧
           destroyed p' = false ∧ ran p' = ran p ∧ queue_ p' = [].
Proof.
  revert p; induction n as [|n IH]; intros p Hm I Hs Hd Hi; [lia|].
  destruct (find_live (threads_ p)) as [(i & t & Hl & Hw)|Hall].
  - destruct Hi as [Hq Hr].
    destruct t as [|info| |]; simpl in Hw; try lia;
      [|by apply forallb_resting_lookup in Hl].
    set (p1 := with_threads (<[i := Exited]> (threads_ p)) p).
    assert (E : run_op (OWorkerWake i) p = Ok p1).
    { unfold run_op, WorkerLoop_wake. by rewrite Hd, Hl, Hs, Hq. }
    assert (S : step (OWorkerWake i) p p1) by (unfold step; by rewrite E).
    destruct (IH p1) as (os & p' & Hos & H & Hall & Hj & Hd' & Hran & Hq');
      [|by eapply step_inv|done|done| |].
    + pose proof (threads_weight_insert (threads_ p) i AtWait Exited Hl).
      simpl in *. lia.
    + split; [done|]. simpl. by apply forallb_resting_insert.
    + exists (OWorkerWake i :: os), p'. simpl. rewrite E. simpl. by repeat split.
  - exists [], p. destruct Hi as [Hq _]. by repeat split.
Qed.

(** X11: [Stop] on an idle pool completes.  On a pool that is not stopping,
    with nothing queued and no run in progress, the call sets the flag and
    suspends its caller; from every later state in which the caller is
    still suspended, the workers at the wait leave their loop one after
    the other, without any task being run, and the join loop then
    completes with every thread joined. *)
Theorem Stop_completes_when_idle p :
  reachable p → stopping_ p = false → destroyed p = false → idle p →
  ∃ p1, Stop p = Pending p1 ∧
    ∀ os p2, exec os p1 = Some p2 → joiner p2 = Some ByUser → destroyed p2 = false →
      ∃ os' p3 p4, forallb is_worker_wake os' = true ∧ exec os' p2 = Some p3 ∧
                   run_op OJoin p3 = Ok p4 ∧
                   Forall (eq Joined) (threads_ p4) ∧ queue_ p4 = [] ∧
                   ran p4 = ran p2.
Proof.
  intros R Hs Hd Hi. pose proof (reachable_inv p R) as I.
  eexists. split; [unfold Stop, Stop_enter; by rewrite Hs|].
  intros os p2 H Hj Hd2.
  assert (I1 : pool_inv (with_joiner (Some ByUser) (with_stopping true p))).
  { apply (Stop_enter_inv ByUser p); [done..|]. unfold Stop_enter. by rewrite Hs. }
  pose proof (exec_inv _ _ _ I1 H) as I2.
  pose proof (exec_stopping _ _ _ H eq_refl) as Hs2.
  assert (Hi2 : idle p2) by (by apply (exec_idle os _ p2 I1 eq_refl)).
  destruct (idle_workers_exit (S (threads_weight (threads_ p2))) p2)
    as (os' & p3 & Hos & H3 & Hall & Hj3 & Hd3 & Hran & Hq3); [lia|done..|].
  exists os', p3. eexists. split; [done|]. split; [done|].
  unfold run_op, Stop_join. rewrite Hd3, Hj3, Hj, (join_all_exited _ Hall).
  split; [done|]. simpl. split; [by apply Forall_replicate|]. by split.
Qed.

Lemma Stop_completes_when_idle_witness :
  ∃ p1, Stop (new_pool 2) = Pending p1 ∧
    ∀ os p2, exec os p1 = Some p2 → joiner p2 = Some ByUser → destroyed p2 = false →
      ∃ os' p3 p4, forallb is_worker_wake os' = true ∧ exec os' p2 = Some p3 ∧
                   run_op OJoin p3 = Ok p4 ∧
                   Forall (eq Joined) (threads_ p4) ∧ queue_ p4 = [] ∧
                   ran p4 = ran p2.
Proof.
  apply (Stop_completes_when_idle (new_pool 2)).
  - by apply new_pool_reachable.
  - vm_compute. reflexivity.
  - vm_compute. reflexivity.
  - split; vm_compute; reflexivity.
Defined.

(** ** The registry *)

(** X13: no submitted task is lost.  In every state of a constructed pool
    a registered name has a record holding a task, and the record is in
    exactly one of three conditions: queued (the name is in the queue, no
    flag set, no worker holds it), running (started, not finished, not
    queued, held by a worker), or finished (started and finished, not
    queued, held by no worker). *)
Theorem registered_record_condition p name info :
  reachable p → tasks_ p !! name = Some info →
  ∃ r t, heap p !! info = Some r ∧ task r = Some t ∧
    ((name ∈ queue_ p ∧ started r = false ∧ finished r = false ∧
      (∀ i, threads_ p !! i ≠ Some (InRun info)) ∧ (t ∈ ran p → ∃ info' r',
         info' ≠ info ∧ heap p !! info' = Some r' ∧ task r' = Some t)) ∨
     ((name ∉ queue_ p) ∧ started r = true ∧ finished r = false ∧
      (∃ i, threads_ p !! i = Some (InRun info)) ∧ t ∈ ran p) ∨
     ((name ∉ queue_ p) ∧ started r = true ∧ finished r = true ∧
      (∀ i, threads_ p !! i ≠ Some (InRun info)) ∧ t ∈ ran p)).
Proof.
  intros R Hn. pose proof (reachable_inv p R) as I.
  pose proof (reachable_life p R) as L.
  destruct (reachable_runs p R) as (infos & Hruns).
  destruct (inv_reg p I name info Hn) as [r Hr].
  destruct (li_task p L info r Hr) as [t Ht].
  exists r, t. split; [done|]. split; [done|].
  assert (Hq : name ∈ queue_ p → started r = false ∧ finished r = false).
  { intros Hin. destruct (inv_queue p I name Hin) as (?&?&?&?&?&?&?&?). by simplify_eq. }
  assert (Hw : ∀ i, threads_ p !! i = Some (InRun info) →
                    started r = true ∧ finished r = false).
  { intros i Hi. destruct (inv_worker p I i info Hi) as (r1 & ? & ? & _).
    destruct (li_held p L i info Hi) as (? & r2 & _ & ? & ?). by simplify_eq. }
  destruct (finished r) eqn:Hf.
  - right. right. pose proof (li_finished p L info r Hr Hf) as Hs.
    repeat split; try done.
    + intros Hin. destruct (Hq Hin). congruence.
    + intros i Hi. destruct (Hw i Hi). congruence.
    + by apply (runs_of_started p infos info r t).
  - destruct (li_pending p L name info r Hn Hr Hf) as [Hin|[i Hi]].
    + left. destruct (Hq Hin) as [Hs _]. repeat split; try done.
      * intros i Hi. destruct (Hw i Hi). congruence.
      * intros Hran. destruct (runs_of_ran p infos t Hruns Hran) as (x & rx & Hx & Hsx & Htx).
        exists x, rx. repeat split; try done. intros ->. congruence.
    + right. left. destruct (Hw i Hi) as [Hs _]. repeat split; try done.
      * intros Hin. destruct (Hq Hin). congruence.
      * by exists i.
      * by apply (runs_of_started p infos info r t).
Qed.

Lemma registered_record_condition_witness :
  ∃ r t, heap pool_running !! 0 = Some r ∧ task r = Some t ∧
    (("a" ∈ queue_ pool_running ∧ started r = false ∧ finished r = false ∧
      (∀ i, threads_ pool_running !! i ≠ Some (InRun 0)) ∧
      (t ∈ ran pool_running → ∃ info' r',
         info' ≠ 0 ∧ heap pool_running !! info' = Some r' ∧ task r' = Some t)) ∨
     (("a" ∉ queue_ pool_running) ∧ started r = true ∧ finished r = false ∧
      (∃ i, threads_ pool_running !! i = Some (InRun 0)) ∧ t ∈ ran pool_running) ∨
     (("a" ∉ queue_ pool_running) ∧ started r = true ∧ finished r = true ∧
      (∀ i, threads_ pool_running !! i ≠ Some (InRun 0)) ∧ t ∈ ran pool_running)).
Proof.
  apply (registered_record_condition pool_running "a" 0 pool_running_reachable).
  vm_compute. reflexivity.
Defined.

(** X14: names are unique among the live records.  In every state of a
    constructed pool no name is queued twice and two registered names never
    share a record; a successful submission keeps the queue free of
    duplicates and gives the new name a record that no other name has. *)
Theorem names_are_unique p :
  reachable p →
  NoDup (queue_ p) ∧
  (∀ n1 n2 info, tasks_ p !! n1 = Some info → tasks_ p !! n2 = Some info → n1 = n2) ∧
  (∀ name tk p', stopping_ p = false → tasks_ p !! name = None →
     SubmitTask name (Some tk) p = Ok p' →
     NoDup (queue_ p') ∧ ∀ n, n ≠ name → tasks_ p' !! n ≠ tasks_ p' !! name).
Proof.
  intros R. pose proof (reachable_inv p R) as I.
  split; [apply I|]. split; [apply I|].
  intros name tk p' Hs Hn H.
  assert (I' : pool_inv p').
  { destruct (destroyed p) eqn:Hd.
    - destruct (destroyed_inv p I Hd) as (_ & _ & ?). congruence.
    - apply (SubmitTask_inv name (Some tk) p); [done..|by rewrite H]. }
  split; [apply I'|]. intros n Hne E.
  unfold SubmitTask in H. rewrite Hs, Hn in H. injection H as <-. simpl in *.
  rewrite lookup_insert_eq in E.
  apply Hne. by apply (inv_inj _ I' n name (next_info p)); simpl;
    [|rewrite lookup_insert_eq].
Qed.

Lemma names_are_unique_witness : NoDup (queue_ pool_two_queued).
Proof. apply (names_are_unique pool_two_queued pool_two_queued_reachable). Defined.
